(** * AsyncArduino: the cooperative scheduler of [async.h]

    A shallow embedding of the task record [function<F>] and of the registry
    [Async<F>] (add, remove, sort, offsetDelayBy, run_until_complete),
    followed by the properties of the registry that the design document
    states.

    Conventions.
    - [unsigned long] is the 32-bit unsigned type of the Arduino tool chains;
      its values are integers in [0, 2^32) and arithmetic that can leave the
      range is reduced with [wrap].  A subtraction that the source guards
      with a comparison ([a >= b] before [a - b]) is exact and written as is.
    - [int] fields ([m_size], [curr_size]) and [int] parameters ([index]) are
      integers; every value they take stays far below the 16-bit limit.
    - [unsigned int] loop counters are natural numbers.
    - The heap array [tasks] is a list holding one element per allocated
      slot; [tasks[i]] is the lookup at [i], an assignment to [tasks[i]] is
      the list update at [i]. *)

From Stdlib Require Import ZArith Lia.
From stdpp Require Import base numbers option list.

Local Open Scope Z_scope.

(** ** Machine integers *)

Definition ULONG_MODULUS : Z := 2 ^ 32.
Definition ULONG_MAX : Z := ULONG_MODULUS - 1.

Definition wrap (z : Z) : Z := z mod ULONG_MODULUS.

Definition is_ulong (z : Z) : Prop := 0 ≤ z ≤ ULONG_MAX.

(** [#define MAX_FUNCTIONARRAY_SIZE 32] *)
Definition MAX_FUNCTIONARRAY_SIZE : Z := 32.

(** ** The external services: clock and blocking sleep *)

(** What the engine does to the outside world, in order. *)
Inductive Event : Type :=
  | Run (step id : Z)            (* a callback was invoked with (step, id) *)
  | Delay (ms : Z)               (* delay(ms) *)
  | DelayMicroseconds (us : Z).  (* delayMicroseconds(us) *)

(** The world threaded through the run loop: how many times [micros()] has
    been read so far, and the events emitted so far (oldest first). *)
Record World : Type := mkWorld {
  clock_reads : nat;
  events : list Event
}.

Definition emit (e : Event) (w : World) : World :=
  mkWorld (clock_reads w) (events w ++ [e]).

(** [wait(time, microseconds = true)] *)
Definition wait (time : Z) (microseconds : bool) (w : World) : World :=
  if microseconds && (16383 <? time) then emit (Delay (time / 1000)) w
  else if microseconds then emit (DelayMicroseconds time) w
  else if negb microseconds then emit (Delay time) w
  else w.

(** [_swap(first, other)]: the pair of the new values of [first] and
    [other]. *)
Definition _swap {T : Type} (first other : T) : T * T :=
  let tmp := first in
  let first := other in
  let other := tmp in
  (first, other).

(** ** [struct function<F>] *)

(** The callback type the run loop is specialised to: a pointer to a function
    taking two [unsigned long] and returning [unsigned long].  A callback is
    read as the function from its arguments [(step, id)] to the value it
    returns. *)
Definition callback : Type := Z → Z → Z.

Record function : Type := mkFunction {
  m_func : option callback;   (* [None] is [nullptr] *)
  delay_time_us : Z;
  step : Z;
  id : Z
}.

(** [function()=default]: the member initialisers. *)
Definition function_default : function :=
  mkFunction None 0 1 0.

Global Instance function_inhabited : Inhabited function :=
  populate function_default.

(** [function(F func)] *)
Definition function_of (func : callback) : function :=
  mkFunction (Some func) 0 1 0.

Definition get_delay (microseconds : bool) (f : function) : Z :=
  if microseconds then delay_time_us f
  else delay_time_us f / 1000.

Definition set_delay (delay : Z) (microseconds : bool) (f : function) : function :=
  if microseconds then mkFunction (m_func f) delay (step f) (id f)
  else mkFunction (m_func f) (wrap (delay * 1000)) (step f) (id f).

Definition getStep (f : function) : Z := step f.

Definition setStep (newSize : Z) (f : function) : function :=
  mkFunction (m_func f) (delay_time_us f) newSize (id f).

Definition getId (f : function) : Z := id f.

Definition setId (newId : Z) (f : function) : function :=
  mkFunction (m_func f) (delay_time_us f) (step f) newId.

(** [this->swap(other)]: the new [*this] and the new [other]. *)
Definition swap (this other : function) : function * function :=
  let '(f1, f2) := _swap (m_func this) (m_func other) in
  let '(s1, s2) := _swap (step this) (step other) in
  let '(d1, d2) := _swap (delay_time_us this) (delay_time_us other) in
  let '(i1, i2) := _swap (id this) (id other) in
  (mkFunction f1 d1 s1 i1, mkFunction f2 d2 s2 i2).

(** [this->operator=(other)]: [other] is a by-value copy that is swapped
    into [*this]; the result is the new [*this]. *)
Definition assign (this other : function) : function :=
  fst (swap this other).

(** [run<R>(args...)]: calling through [nullptr] has no defined result. *)
Definition run (f : function) (a b : Z) : option Z :=
  match m_func f with
  | Some func => Some (func a b)
  | None => None
  end.

(** ** [struct Async<F>] *)

Record Async : Type := mkAsync {
  m_size : Z;
  curr_size : Z;
  tasks : list function
}.

(** The member initialisers: capacity 1, no task, a one-slot array.
    ([m_permsize] is never read and is left out.) *)
Definition Async_new : Async :=
  mkAsync 1 0 (replicate (Z.to_nat 1) function_default).

Definition size (a : Async) : Z := curr_size a.
Definition max_size (a : Async) : Z := m_size a.

(** The live range: the slots [0 .. curr_size - 1]. *)
Definition live (a : Async) : list function :=
  take (Z.to_nat (curr_size a)) (tasks a).

(** [getAll()] hands out the array; its documented extent is the live range. *)
Definition getAll (a : Async) : list function := tasks a.

(** [for (unsigned int iii = start; iii < bound; iii++) body], for a body that
    changes neither [iii] nor [bound]: [count] is [bound - start]. *)
Fixpoint for_loop {St : Type} (count : nat) (iii : nat)
    (body : nat → St → St) (s : St) : St :=
  match count with
  | O => s
  | S count' => for_loop count' (S iii) body (body iii s)
  end.

(** *** sort *)

(** [tasks[i].swap(tasks[j])] for two distinct slots. *)
Definition swap_slots (ts : list function) (i j : nat) : list function :=
  let '(a, b) := swap (ts !!! i) (ts !!! j) in
  <[j := b]> (<[i := a]> ts).

(** The state of [sort] while it runs: the array, the variable
    [smallestIndex], and the slots whose contents were read or written so
    far. *)
Record SortState : Type := mkSortState {
  s_tasks : list function;
  smallestIndex : nat;
  touched : list nat
}.

(** The body of the inner loop. *)
Definition sort_inner_body (iii : nat) (s : SortState) : SortState :=
  let ts := s_tasks s in
  let si := smallestIndex s in
  let log := touched s ++ [iii; si] in
  if get_delay true (ts !!! iii) <? get_delay true (ts !!! si)
  then mkSortState ts iii log
  else mkSortState ts si log.

(** The body of the outer loop; [n] is [curr_size]. *)
Definition sort_outer_body (n : nat) (currentIndex : nat) (s : SortState)
    : SortState :=
  let s := for_loop (n - currentIndex)%nat currentIndex sort_inner_body s in
  if decide (currentIndex ≠ smallestIndex s)
  then mkSortState (swap_slots (s_tasks s) currentIndex (smallestIndex s))
                   (smallestIndex s)
                   (touched s ++ [currentIndex; smallestIndex s])
  else s.

(** [sort()] with the record of the slots it touches. *)
Definition sort_run (a : Async) : SortState :=
  let s := mkSortState (tasks a) 0 [] in
  if curr_size a =? 0 then s
  else for_loop (Z.to_nat (curr_size a - 1)) 0
         (sort_outer_body (Z.to_nat (curr_size a))) s.

Definition sort (a : Async) : Async :=
  mkAsync (m_size a) (curr_size a) (s_tasks (sort_run a)).

(** The slots [sort()] reads or writes, in order. *)
Definition sort_touched (a : Async) : list nat := touched (sort_run a).

(** *** offsetDelayBy *)

Definition offset_body (offsetDelay : Z) (iii : nat) (ts : list function)
    : list function :=
  let t := ts !!! iii in
  if offsetDelay <=? get_delay true t
  then <[iii := set_delay (get_delay true t - offsetDelay) true t]> ts
  else <[iii := set_delay 0 true t]> ts.

Definition offsetDelayBy (offsetDelay : Z) (a : Async) : Async :=
  mkAsync (m_size a) (curr_size a)
    (for_loop (Z.to_nat (curr_size a)) 0 (offset_body offsetDelay) (tasks a)).

(** *** allocate, deallocate *)

(** [newTasks[iii] = tasks[iii]]; the state of the copy loops is [newTasks]. *)
Definition copy_body (old : list function) (iii : nat)
    (newTasks : list function) : list function :=
  <[iii := assign (newTasks !!! iii) (old !!! iii)]> newTasks.

Definition allocate (newSize : Z) (a : Async) : Async :=
  let newTasks := replicate (Z.to_nat newSize) function_default in
  let newTasks :=
    if m_size a <? newSize
    then for_loop (Z.to_nat (curr_size a)) 0 (copy_body (tasks a)) newTasks
    else newTasks in
  mkAsync newSize (curr_size a) newTasks.

Definition deallocate (newSize : Z) (a : Async) : Async :=
  let newTasks := replicate (Z.to_nat newSize) function_default in
  let newTasks :=
    for_loop (Z.to_nat newSize) 0 (copy_body (tasks a)) newTasks in
  mkAsync newSize (curr_size a) newTasks.

(** *** add *)

Definition add (fw : function) (a : Async) : Async :=
  if MAX_FUNCTIONARRAY_SIZE <=? curr_size a then a
  else
    let a := if m_size a <=? curr_size a then allocate (m_size a * 2) a
             else a in
    let slot := Z.to_nat (curr_size a) in
    mkAsync (m_size a) (curr_size a + 1)
      (<[slot := assign (tasks a !!! slot) fw]> (tasks a)).

(** *** remove *)

(** [temp] is a local copy of the last live task; after the swap it holds
    the task to delete and is destroyed, which does not touch the array.
    Integer division of the non-negative [m_size] is [Z.quot]. *)
Definition remove (index : Z) (a : Async) : Async :=
  if curr_size a <=? index then a
  else if index <? 0 then a
  else
    let temp := tasks a !!! Z.to_nat (curr_size a - 1) in
    let '(_, slot) := swap temp (tasks a !!! Z.to_nat index) in
    let a := mkAsync (m_size a) (curr_size a)
               (<[Z.to_nat index := slot]> (tasks a)) in
    let a := mkAsync (m_size a) (curr_size a - 1) (tasks a) in
    let a := sort a in
    if curr_size a <? m_size a ÷ 2 then deallocate (m_size a ÷ 2) a
    else a.

(** *** get *)

(** [get] is not embedded.  Its bounds test is written [index >= size],
    which names the member function [size] instead of calling it or reading
    [curr_size]; an [int] cannot be compared with a member function, so no
    instantiation of [get] exists and there is no behaviour to carry over. *)

(** *** run_until_complete *)

Inductive Flow : Type := Continue | Break.

Section RunLoop.

(** [micros k] is what the [k]-th call of [micros()] returns. *)
Variable micros : nat → Z.

Definition read_clock (w : World) : Z * World :=
  (wrap (micros (clock_reads w)), mkWorld (S (clock_reads w)) (events w)).

(** The two statements of the [returnValue > 0] branch. *)
Definition reschedule (returnValue : Z) (a : Async) : Async :=
  let t := set_delay returnValue true (tasks a !!! 0%nat) in
  let t := setStep (wrap (getStep t + 1)) t in
  mkAsync (m_size a) (curr_size a) (<[0%nat := t]> (tasks a)).

(** One pass through the body of the [while] loop; [None] when the head
    task's callback is [nullptr]. *)
Definition iteration (a : Async) (w : World) : option (Flow * Async * World) :=
  let '(begin, w) := read_clock w in
  let t0 := tasks a !!! 0%nat in
  returnValue ← run t0 (getStep t0) (getId t0);
  let w := emit (Run (getStep t0) (getId t0)) w in
  let a := if 0 <? returnValue then reschedule returnValue a
           else remove 0 a in
  let a := sort a in
  if curr_size a =? 0 then Some (Break, a, w)
  else
    let '(now, w) := read_clock w in
    let time_spent := wrap (now - begin) in
    if get_delay true (tasks a !!! 0%nat) <=? time_spent
    then Some (Continue, offsetDelayBy time_spent a, w)
    else
      let w := wait (get_delay true (tasks a !!! 0%nat) - time_spent) true w in
      Some (Continue,
            offsetDelayBy (get_delay true (tasks a !!! 0%nat) - time_spent) a,
            w).

(** How a run of the loop ends within a bounded number of passes. *)
Inductive Outcome : Type :=
  | Completed (a : Async) (w : World)   (* the loop was left *)
  | Running (a : Async) (w : World)     (* still looping after [fuel] passes *)
  | Undefined.                          (* a [nullptr] callback was called *)

Fixpoint run_until_complete (fuel : nat) (a : Async) (w : World) : Outcome :=
  if 0 <? curr_size a then
    match fuel with
    | O => Running a w
    | S fuel' =>
        match iteration a w with
        | None => Undefined
        | Some (Break, a', w') => Completed a' w'
        | Some (Continue, a', w') => run_until_complete fuel' a' w'
        end
    end
  else Completed a w.

End RunLoop.

(** ** Registry states *)

(** The bounds on the two size fields. *)
Definition size_invariant (a : Async) : Prop :=
  0 ≤ curr_size a ≤ m_size a ∧
  m_size a ≤ MAX_FUNCTIONARRAY_SIZE ∧
  ∃ k : nat, m_size a = 2 ^ Z.of_nat k.

(** A registry state: the size bounds, and an array of [m_size] slots. *)
Definition well_formed (a : Async) : Prop :=
  size_invariant a ∧ length (tasks a) = Z.to_nat (m_size a).

(** * Vocabulary of the properties *)

(** ** The run loop, pass by pass *)

(** The delay of the head task. *)
Definition head_delay (a : Async) : Z := get_delay true (tasks a !!! 0%nat).

(** The measured execution time of a pass that starts in world [w]. *)
Definition time_spent_in (micros : nat → Z) (w : World) : Z :=
  wrap (wrap (micros (S (clock_reads w))) - wrap (micros (clock_reads w))).

(** The registry after the head task ran and returned [r], re-sorted. *)
Definition after_head (r : Z) (a : Async) : Async :=
  sort (if 0 <? r then reschedule r a else remove 0 a).

(** The world after the callback ran and the clock was read twice. *)
Definition after_clock (a : Async) (w : World) : World :=
  mkWorld (S (S (clock_reads w)))
    (events w ++ [Run (getStep (tasks a !!! 0%nat)) (getId (tasks a !!! 0%nat))]).

(** ** What [sort] and [offsetDelayBy] do to the array *)

(** Relative to the array [ts] it started from and the live size [n]: the
    live range is a rearrangement, the slots behind it are as they were,
    [smallestIndex] and every touched slot lie in the live range. *)
Definition sort_inv (ts : list function) (n : nat) (s : SortState) : Prop :=
  length (s_tasks s) = length ts ∧
  take n (s_tasks s) ≡ₚ take n ts ∧
  drop n (s_tasks s) = drop n ts ∧
  (smallestIndex s < n)%nat ∧
  Forall (λ i, (i < n)%nat) (touched s).

(** What [offsetDelayBy] does to one task. *)
Definition offset_task (offsetDelay : Z) (t : function) : function :=
  if offsetDelay <=? get_delay true t
  then set_delay (get_delay true t - offsetDelay) true t
  else set_delay 0 true t.

(** ** Sequences of operations, reachable registries *)

(** [add] called once per element of [fs], first element first. *)
Definition add_all (fs : list function) (a : Async) : Async :=
  foldl (λ r fw, add fw r) a fs.

(** A callback that is finished at once. *)
Definition idle : callback := λ _ _, 0.

(** A task built from the callback [idle] and given the delay [d]. *)
Definition with_delay (d : Z) : function :=
  set_delay d true (function_of idle).

(** The registry reached from the empty one by adding tasks with the given
    delays, in order. *)
Definition registry_of_delays (ds : list Z) : Async :=
  add_all (with_delay <$> ds) Async_new.

Definition delays (l : list function) : list Z := get_delay true <$> l.

(** The live range is sorted ascending by delay: every adjacent pair is in
    order. *)
Definition sorted_by_delay (a : Async) : Prop :=
  ∀ (i : nat) (x y : function),
    live a !! i = Some x → live a !! S i = Some y →
    get_delay true x ≤ get_delay true y.

(** The [(step, id)] arguments of the callback invocations among the
    events. *)
Definition calls (evs : list Event) : list (Z * Z) :=
  omap (λ e, match e with Run s i => Some (s, i) | _ => None end) evs.

(** The public operations as a step relation on registries; a run of the
    loop is observed when it has returned and after any number of passes. *)
Inductive public_step : Async → Async → Prop :=
  | step_add fw a : public_step a (add fw a)
  | step_remove index a : public_step a (remove index a)
  | step_sort a : public_step a (sort a)
  | step_offsetDelayBy x a : public_step a (offsetDelayBy x a)
  | step_run_completed micros fuel a w a' w' :
      run_until_complete micros fuel a w = Completed a' w' →
      public_step a a'
  | step_run_running micros fuel a w a' w' :
      run_until_complete micros fuel a w = Running a' w' →
      public_step a a'.

Inductive reachable : Async → Prop :=
  | reachable_new : reachable Async_new
  | reachable_step a a' : reachable a → public_step a a' → reachable a'.

(** ** Concrete registries, callbacks and clocks *)

(** Exactly one task is registered: its callback is [f], its step counter
    [s] and its id [i]; the delay is left open. *)
Definition only_task (f : callback) (s i : Z) (a : Async) : Prop :=
  curr_size a = 1 ∧
  ∃ d, tasks a !! 0%nat = Some (mkFunction (Some f) d s i).

(** A callback that always asks to be run again after 500 microseconds. *)
Definition every_500 : callback := λ _ _, 500.

(** A callback that asks for 500 microseconds on steps 1 to 3 and finishes
    on step 4. *)
Definition three_then_done : callback := λ s _, if s <? 4 then 500 else 0.

(** A clock that advances 100 microseconds between two readings. *)
Definition tick_100 (k : nat) : Z := 100 * Z.of_nat k.

Definition world_start : World := mkWorld 0 [].

(** A clock that advances 700 microseconds between two readings. *)
Definition tick_700 (k : nat) : Z := 700 * Z.of_nat k.

(** A callback that always asks to be run again after 20600 microseconds. *)
Definition every_20600 : callback := λ _ _, 20600.

(** Two registered tasks: the first asks for 500 microseconds whenever it
    runs, the second waits with a delay of 1000 microseconds. *)
Definition two_waiting : Async :=
  add (set_delay 1000 true (function_of idle))
    (add (function_of every_500) Async_new).

(** ** Sleeps, one-shot tasks, tight capacity *)

(** The time an event keeps the engine asleep, in microseconds. *)
Definition slept_us (e : Event) : Z :=
  match e with
  | Run _ _ => 0
  | Delay ms => ms * 1000
  | DelayMicroseconds us => us
  end.

(** A task whose callback, called with the task's current step and id,
    returns 0: it is finished the next time it runs. *)
Definition one_shot (t : function) : Prop :=
  ∃ f, m_func t = Some f ∧ f (step t) (id t) = 0.

(** The capacity is the initial one or at most twice the number of tasks. *)
Definition capacity_tight (a : Async) : Prop :=
  m_size a = 1 ∨ m_size a ≤ 2 * curr_size a.

(** The largest delay in milliseconds that [set_delay] stores without
    wrapping. *)
Definition MAX_DELAY_MS : Z := ULONG_MAX / 1000.

(** * Facts about the operations *)

(** ** Basic facts *)

Lemma swap_exchanges (x y : function) : swap x y = (y, x).
Proof. by destruct x, y. Qed.

Lemma assign_copies (x y : function) : assign x y = y.
Proof. unfold assign. by rewrite swap_exchanges. Qed.

(** The invariant rule for counted loops. *)
Lemma for_loop_invariant {St : Type} (P : nat → St → Prop)
    (body : nat → St → St) (count start : nat) (s : St) :
  P start s →
  (∀ i t, (start ≤ i < start + count)%nat → P i t → P (S i) (body i t)) →
  P (start + count)%nat (for_loop count start body s).
Proof.
  revert start s. induction count as [|count IH]; intros start s H0 Hstep.
  - by rewrite Nat.add_0_r.
  - simpl. replace (start + S count)%nat with (S start + count)%nat by lia.
    apply IH.
    + apply Hstep; [lia | done].
    + intros i t Hi. apply Hstep. lia.
Qed.

Lemma swap_slots_eq (ts : list function) (i j : nat) :
  swap_slots ts i j = <[j := ts !!! i]> (<[i := ts !!! j]> ts).
Proof. unfold swap_slots. by rewrite swap_exchanges. Qed.

Lemma swap_slots_length ts i j : length (swap_slots ts i j) = length ts.
Proof. by rewrite swap_slots_eq, !length_insert. Qed.

Lemma swap_slots_take ts n i j :
  (i < n ≤ length ts)%nat → (j < n)%nat →
  take n (swap_slots ts i j) ≡ₚ take n ts.
Proof.
  intros Hi Hj. rewrite swap_slots_eq, !take_insert_lt by lia.
  apply Permutation_insert_swap.
  - rewrite lookup_take_lt by lia. apply list_lookup_lookup_total_lt. lia.
  - rewrite lookup_take_lt by lia. apply list_lookup_lookup_total_lt. lia.
Qed.

Lemma swap_slots_drop ts n i j :
  (i < n)%nat → (j < n)%nat → drop n (swap_slots ts i j) = drop n ts.
Proof. intros. by rewrite swap_slots_eq, !drop_insert_lt by lia. Qed.

(** ** What [sort] maintains *)

Lemma sort_inner_body_inv ts n iii s :
  (iii < n)%nat → sort_inv ts n s → sort_inv ts n (sort_inner_body iii s).
Proof.
  intros Hi (Hlen & Hperm & Hdrop & Hsi & Hlog).
  assert (Forall (λ i, (i < n)%nat) (touched s ++ [iii; smallestIndex s])).
  { apply Forall_app. split; [done|]. by repeat constructor. }
  unfold sort_inner_body.
  destruct (_ <? _); repeat split; simpl; done.
Qed.

Lemma sort_inner_loop_inv ts n currentIndex s :
  (currentIndex ≤ n)%nat → sort_inv ts n s →
  sort_inv ts n (for_loop (n - currentIndex) currentIndex sort_inner_body s).
Proof.
  intros Hc Hs.
  apply (for_loop_invariant (λ _ t, sort_inv ts n t)); [done|].
  intros i t Hi Ht. apply sort_inner_body_inv; [lia | done].
Qed.

Lemma sort_outer_body_inv ts n currentIndex s :
  (currentIndex < n ≤ length ts)%nat → sort_inv ts n s →
  sort_inv ts n (sort_outer_body n currentIndex s).
Proof.
  intros Hc Hs. unfold sort_outer_body.
  pose proof (sort_inner_loop_inv ts n currentIndex s ltac:(lia) Hs) as Hin.
  set (s' := for_loop _ _ _ _) in *.
  destruct Hin as (Hlen & Hperm & Hdrop & Hsi & Hlog).
  case_decide; [|by repeat split].
  repeat split; simpl.
  - by rewrite swap_slots_length.
  - rewrite swap_slots_take by lia. done.
  - rewrite swap_slots_drop by lia. done.
  - done.
  - apply Forall_app. split; [done|]. repeat constructor; lia.
Qed.

Lemma sort_run_inv (a : Async) :
  0 < curr_size a ≤ Z.of_nat (length (tasks a)) →
  sort_inv (tasks a) (Z.to_nat (curr_size a)) (sort_run a).
Proof.
  intros Hn. unfold sort_run.
  destruct (Z.eqb_spec (curr_size a) 0) as [?|_]; [lia|].
  apply (for_loop_invariant
           (λ _ t, sort_inv (tasks a) (Z.to_nat (curr_size a)) t)).
  - repeat split; simpl; [done | lia | constructor].
  - intros i t Hi Ht. apply sort_outer_body_inv; [lia | done].
Qed.

Lemma sort_curr_size a : curr_size (sort a) = curr_size a.
Proof. done. Qed.

Lemma sort_m_size a : m_size (sort a) = m_size a.
Proof. done. Qed.

Lemma sort_empty a : curr_size a ≤ 0 → sort a = a.
Proof.
  intros Hn. unfold sort, sort_run. destruct a as [m n ts]; simpl in *.
  destruct (Z.eqb_spec n 0); [done|].
  by replace (Z.to_nat (n - 1)) with 0%nat by lia.
Qed.

Lemma sort_tasks_length a :
  curr_size a ≤ Z.of_nat (length (tasks a)) →
  length (tasks (sort a)) = length (tasks a).
Proof.
  intros Hn. destruct (decide (curr_size a ≤ 0)) as [H0|H0].
  - by rewrite sort_empty.
  - apply (sort_run_inv a). lia.
Qed.

Lemma sort_live a :
  curr_size a ≤ Z.of_nat (length (tasks a)) → live (sort a) ≡ₚ live a.
Proof.
  intros Hn. destruct (decide (curr_size a ≤ 0)) as [H0|H0].
  - by rewrite sort_empty.
  - apply (sort_run_inv a). lia.
Qed.

Lemma sort_rest a :
  curr_size a ≤ Z.of_nat (length (tasks a)) →
  drop (Z.to_nat (curr_size a)) (tasks (sort a))
  = drop (Z.to_nat (curr_size a)) (tasks a).
Proof.
  intros Hn. destruct (decide (curr_size a ≤ 0)) as [H0|H0].
  - by rewrite sort_empty.
  - apply (sort_run_inv a). lia.
Qed.

Lemma sort_touched_live a :
  curr_size a ≤ Z.of_nat (length (tasks a)) →
  Forall (λ i, Z.of_nat i < curr_size a) (sort_touched a).
Proof.
  intros Hn. unfold sort_touched.
  destruct (decide (curr_size a ≤ 0)) as [H0|H0].
  - unfold sort_run. destruct (Z.eqb_spec (curr_size a) 0); [constructor|].
    replace (Z.to_nat (curr_size a - 1)) with 0%nat by lia. constructor.
  - destruct (sort_run_inv a) as (_ & _ & _ & _ & Hlog); [lia|].
    eapply Forall_impl; [exact Hlog|]. simpl. intros i Hi. lia.
Qed.

(** ** The copy loops of [allocate] and [deallocate] *)

Lemma copy_loop_spec (old new : list function) (count : nat) :
  (count ≤ length old)%nat → (count ≤ length new)%nat →
  for_loop count 0 (copy_body old) new = take count old ++ drop count new.
Proof.
  intros Hold Hnew.
  apply (for_loop_invariant
           (λ i t, t = take i old ++ drop i new) (copy_body old) count 0%nat).
  - by rewrite take_0, drop_0.
  - intros i t Hi ->. unfold copy_body. rewrite assign_copies.
    assert (length (take i old) = i) as Hlen by (rewrite length_take; lia).
    rewrite insert_app_r_alt by lia.
    rewrite Hlen, Nat.sub_diag.
    destruct (lookup_lt_is_Some_2 old i ltac:(lia)) as [x Hx].
    destruct (lookup_lt_is_Some_2 new i ltac:(lia)) as [y Hy].
    rewrite (drop_S new y i Hy). simpl.
    rewrite (take_S_r old i x Hx), <-app_assoc. simpl.
    by rewrite (list_lookup_total_correct old i x Hx).
Qed.

Lemma deallocate_tasks newSize a :
  0 ≤ newSize ≤ Z.of_nat (length (tasks a)) →
  tasks (deallocate newSize a) = take (Z.to_nat newSize) (tasks a).
Proof.
  intros Hn. unfold deallocate. simpl.
  rewrite copy_loop_spec by (rewrite ?length_replicate; lia).
  rewrite drop_ge by (rewrite length_replicate; lia).
  by rewrite app_nil_r.
Qed.

Lemma allocate_tasks newSize a :
  m_size a < newSize →
  0 ≤ curr_size a ≤ Z.of_nat (length (tasks a)) → curr_size a ≤ newSize →
  tasks (allocate newSize a)
  = take (Z.to_nat (curr_size a)) (tasks a)
    ++ replicate (Z.to_nat newSize - Z.to_nat (curr_size a)) function_default.
Proof.
  intros Hgrow Hn Hfit. unfold allocate. simpl.
  destruct (Z.ltb_spec (m_size a) newSize) as [_|?]; [|lia].
  rewrite copy_loop_spec by (rewrite ?length_replicate; lia).
  by rewrite drop_replicate.
Qed.

(** ** offsetDelayBy, slot by slot *)

Lemma offset_loop_spec (x : Z) (ts : list function) (count : nat) :
  (count ≤ length ts)%nat →
  for_loop count 0 (offset_body x) ts
  = (offset_task x <$> take count ts) ++ drop count ts.
Proof.
  intros Hc.
  apply (for_loop_invariant
           (λ i t, t = (offset_task x <$> take i ts) ++ drop i ts)
           (offset_body x) count 0%nat).
  - by rewrite take_0, drop_0.
  - intros i t Hi ->.
    assert (length (offset_task x <$> take i ts) = i) as Hlen
      by (rewrite length_fmap, length_take; lia).
    destruct (lookup_lt_is_Some_2 ts i ltac:(lia)) as [y Hy].
    assert (((offset_task x <$> take i ts) ++ drop i ts) !!! i = y) as Hrd.
    { apply list_lookup_total_correct.
      rewrite lookup_app_r by lia. rewrite Hlen, Nat.sub_diag.
      by rewrite lookup_drop, Nat.add_0_r. }
    assert (offset_body x i ((offset_task x <$> take i ts) ++ drop i ts)
            = <[i := offset_task x y]>
                ((offset_task x <$> take i ts) ++ drop i ts)) as ->.
    { unfold offset_body. rewrite Hrd. unfold offset_task.
      by destruct (_ <=? _). }
    rewrite insert_app_r_alt by lia. rewrite Hlen, Nat.sub_diag.
    rewrite (drop_S ts y i Hy). simpl.
    rewrite (take_S_r ts i y Hy), fmap_app, <-app_assoc. done.
Qed.

Lemma offsetDelayBy_tasks x a :
  curr_size a ≤ Z.of_nat (length (tasks a)) →
  tasks (offsetDelayBy x a)
  = (offset_task x <$> live a) ++ drop (Z.to_nat (curr_size a)) (tasks a).
Proof. intros Hn. unfold offsetDelayBy, live. simpl. apply offset_loop_spec. lia. Qed.

Lemma offsetDelayBy_live x a :
  curr_size a ≤ Z.of_nat (length (tasks a)) →
  live (offsetDelayBy x a) = offset_task x <$> live a.
Proof.
  intros Hn. unfold live at 1. rewrite offsetDelayBy_tasks by done. simpl.
  apply take_app_length'. unfold live. rewrite length_fmap, length_take. lia.
Qed.

Lemma offsetDelayBy_tasks_length x a :
  curr_size a ≤ Z.of_nat (length (tasks a)) →
  length (tasks (offsetDelayBy x a)) = length (tasks a).
Proof.
  intros Hn. rewrite offsetDelayBy_tasks by done. unfold live.
  rewrite length_app, length_fmap, length_take_le, length_drop by lia. lia.
Qed.

Lemma offset_task_delay x t :
  0 ≤ x → get_delay true (offset_task x t) = Z.max 0 (get_delay true t - x).
Proof.
  intros Hx. unfold offset_task. destruct t as [f d s i].
  unfold get_delay, set_delay. cbn [delay_time_us].
  destruct (Z.leb_spec x d); cbn [delay_time_us]; lia.
Qed.

Lemma offset_task_twice x1 x2 t :
  0 ≤ x1 → 0 ≤ x2 →
  offset_task x2 (offset_task x1 t) = offset_task (x1 + x2) t.
Proof.
  intros H1 H2. unfold offset_task. destruct t as [f d s i]. simpl.
  destruct (Z.leb_spec x1 d); simpl.
  - destruct (Z.leb_spec x2 (d - x1)), (Z.leb_spec (x1 + x2) d);
      simpl; try lia; f_equal; lia.
  - destruct (Z.leb_spec x2 0), (Z.leb_spec (x1 + x2) d);
      simpl; try lia; f_equal; lia.
Qed.

(** ** The size fields under each operation *)

Lemma pow2_double (m : Z) :
  (∃ k : nat, m = 2 ^ Z.of_nat k) → ∃ k : nat, m * 2 = 2 ^ Z.of_nat k.
Proof.
  intros [k ->]. exists (S k).
  rewrite Nat2Z.inj_succ, Z.pow_succ_r by lia. lia.
Qed.

Lemma pow2_halve (m : Z) :
  1 < m → (∃ k : nat, m = 2 ^ Z.of_nat k) →
  m = 2 * (m ÷ 2) ∧ ∃ k : nat, m ÷ 2 = 2 ^ Z.of_nat k.
Proof.
  intros Hm [k ->]. destruct k as [|k]; [simpl in Hm; lia|].
  rewrite Nat2Z.inj_succ, Z.pow_succ_r by lia.
  assert (0 < 2 ^ Z.of_nat k) by (apply Z.pow_pos_nonneg; lia).
  rewrite Z.quot_div_nonneg by lia.
  replace (2 * 2 ^ Z.of_nat k / 2) with (2 ^ Z.of_nat k)
    by (apply Z.div_unique_exact; lia).
  split; [done | by exists k].
Qed.

Lemma pow2_pos (m : Z) : (∃ k : nat, m = 2 ^ Z.of_nat k) → 0 < m.
Proof. intros [k ->]. apply Z.pow_pos_nonneg; lia. Qed.

(** A power of two that lies strictly below 32 is at most 16. *)
Lemma pow2_below_cap (m : Z) :
  (∃ k : nat, m = 2 ^ Z.of_nat k) → m < MAX_FUNCTIONARRAY_SIZE →
  m * 2 ≤ MAX_FUNCTIONARRAY_SIZE.
Proof.
  unfold MAX_FUNCTIONARRAY_SIZE. intros [k ->] Hlt.
  destruct (decide (k < 5)%nat) as [Hk|Hk].
  - do 5 (destruct k as [|k]; [simpl; lia|]). lia.
  - assert (2 ^ 5 ≤ 2 ^ Z.of_nat k) by (apply Z.pow_le_mono_r; lia).
    change (2 ^ 5) with 32 in *. lia.
Qed.

Lemma add_curr_size fw a :
  curr_size (add fw a)
  = if MAX_FUNCTIONARRAY_SIZE <=? curr_size a then curr_size a
    else curr_size a + 1.
Proof.
  unfold add. destruct (_ <=? curr_size a); [done|].
  by destruct (m_size a <=? curr_size a).
Qed.

Lemma add_m_size fw a :
  m_size (add fw a)
  = if MAX_FUNCTIONARRAY_SIZE <=? curr_size a then m_size a
    else if m_size a <=? curr_size a then m_size a * 2 else m_size a.
Proof.
  unfold add. destruct (_ <=? curr_size a); [done|].
  by destruct (m_size a <=? curr_size a).
Qed.

Lemma add_full fw a : MAX_FUNCTIONARRAY_SIZE ≤ curr_size a → add fw a = a.
Proof.
  intros Hfull. unfold add.
  by destruct (Z.leb_spec MAX_FUNCTIONARRAY_SIZE (curr_size a)); [|lia].
Qed.

Lemma size_invariant_add fw a : size_invariant a → size_invariant (add fw a).
Proof.
  intros (Hn & Hm & Hk). unfold size_invariant.
  rewrite add_curr_size, add_m_size.
  destruct (Z.leb_spec MAX_FUNCTIONARRAY_SIZE (curr_size a)); [done|].
  destruct (Z.leb_spec (m_size a) (curr_size a)).
  - pose proof (pow2_pos _ Hk). pose proof (pow2_below_cap _ Hk).
    split; [lia|]. split; [lia|]. by apply pow2_double.
  - split; [lia|]. done.
Qed.

Lemma remove_out_of_range index a :
  index < 0 ∨ curr_size a ≤ index → remove index a = a.
Proof.
  intros Hi. unfold remove.
  destruct (Z.leb_spec (curr_size a) index); [done|].
  by destruct (Z.ltb_spec index 0); [|lia].
Qed.

Lemma remove_curr_size index a :
  0 ≤ index < curr_size a → curr_size (remove index a) = curr_size a - 1.
Proof.
  intros Hi. unfold remove.
  destruct (Z.leb_spec (curr_size a) index); [lia|].
  destruct (Z.ltb_spec index 0); [lia|].
  rewrite swap_exchanges. simpl. by destruct (_ <? _).
Qed.

Lemma remove_m_size index a :
  0 ≤ index < curr_size a →
  m_size (remove index a)
  = if curr_size a - 1 <? m_size a ÷ 2 then m_size a ÷ 2 else m_size a.
Proof.
  intros Hi. unfold remove.
  destruct (Z.leb_spec (curr_size a) index); [lia|].
  destruct (Z.ltb_spec index 0); [lia|].
  rewrite swap_exchanges. simpl. by destruct (_ <? _).
Qed.

Lemma size_invariant_remove index a :
  size_invariant a → size_invariant (remove index a).
Proof.
  intros Ha. destruct (decide (0 ≤ index < curr_size a)) as [Hi|Hi].
  - destruct Ha as (Hn & Hm & Hk). unfold size_invariant.
    rewrite remove_curr_size, remove_m_size by done.
    destruct (Z.ltb_spec (curr_size a - 1) (m_size a ÷ 2)) as [Hlt|Hge].
    + assert (1 < m_size a) as H1.
      { pose proof (pow2_pos _ Hk).
        destruct (decide (m_size a = 1)) as [E|]; [|lia].
        rewrite E in Hlt. change (1 ÷ 2) with 0 in Hlt. lia. }
      destruct (pow2_halve _ H1 Hk) as [Hhalf Hk'].
      split; [lia|]. split; [lia|]. done.
    + split; [lia|]. done.
  - rewrite remove_out_of_range by lia. done.
Qed.

Lemma size_invariant_sort a : size_invariant a → size_invariant (sort a).
Proof. done. Qed.

Lemma size_invariant_offsetDelayBy x a :
  size_invariant a → size_invariant (offsetDelayBy x a).
Proof. done. Qed.

(** ** The array under [add] and [remove] *)

Lemma take_S_insert (l : list function) (n : nat) (x : function) :
  (n < length l)%nat → take (S n) (<[n := x]> l) = take n l ++ [x].
Proof.
  intros Hn. rewrite (take_S_r _ n x).
  - by rewrite take_insert_ge by lia.
  - by apply list_lookup_insert_eq.
Qed.

Lemma well_formed_bounds a :
  well_formed a →
  0 ≤ curr_size a ≤ Z.of_nat (length (tasks a)) ∧
  Z.of_nat (length (tasks a)) = m_size a.
Proof. intros [(Hn & Hm & Hk) Hlen]. lia. Qed.

Lemma allocate_curr_size newSize a :
  curr_size (allocate newSize a) = curr_size a.
Proof. done. Qed.

Lemma allocate_m_size newSize a : m_size (allocate newSize a) = newSize.
Proof. done. Qed.

Lemma add_live fw a :
  well_formed a → curr_size a < MAX_FUNCTIONARRAY_SIZE →
  live (add fw a) = live a ++ [fw].
Proof.
  intros Hwf Hroom. destruct (well_formed_bounds a Hwf) as [Hn Hlen].
  destruct Hwf as [(_ & _ & Hk) _]. pose proof (pow2_pos _ Hk) as Hpos.
  unfold add, live.
  destruct (Z.leb_spec MAX_FUNCTIONARRAY_SIZE (curr_size a)); [lia|].
  destruct (Z.leb_spec (m_size a) (curr_size a));
    cbn [tasks curr_size m_size]; rewrite ?allocate_curr_size;
    rewrite assign_copies;
    replace (Z.to_nat (curr_size a + 1)) with (S (Z.to_nat (curr_size a)))
      by lia.
  - rewrite allocate_tasks by lia.
    rewrite take_S_insert.
    + rewrite take_app_le by (rewrite length_take; lia).
      by rewrite take_take, Nat.min_id.
    + rewrite length_app, length_take, length_replicate. lia.
  - apply take_S_insert. lia.
Qed.

Lemma well_formed_add fw a : well_formed a → well_formed (add fw a).
Proof.
  intros Hwf. split; [apply size_invariant_add, Hwf|].
  destruct (well_formed_bounds a Hwf) as [Hn Hlen].
  destruct Hwf as [(_ & _ & Hk) Hlen']. pose proof (pow2_pos _ Hk) as Hpos.
  unfold add.
  destruct (Z.leb_spec MAX_FUNCTIONARRAY_SIZE (curr_size a)); [done|].
  destruct (Z.leb_spec (m_size a) (curr_size a));
    cbn [tasks curr_size m_size];
    rewrite ?allocate_curr_size, ?allocate_m_size, length_insert.
  - rewrite allocate_tasks by lia.
    rewrite length_app, length_take, length_replicate. lia.
  - done.
Qed.

Lemma remove_in_range index a :
  0 ≤ index < curr_size a →
  remove index a
  = let a' := sort (mkAsync (m_size a) (curr_size a - 1)
                      (<[Z.to_nat index :=
                           tasks a !!! Z.to_nat (curr_size a - 1)]> (tasks a))) in
    if curr_size a - 1 <? m_size a ÷ 2 then deallocate (m_size a ÷ 2) a'
    else a'.
Proof.
  intros Hi. unfold remove.
  destruct (Z.leb_spec (curr_size a) index); [lia|].
  destruct (Z.ltb_spec index 0); [lia|].
  by rewrite swap_exchanges.
Qed.

(** Overwriting slot [i] with the last of [n] live tasks and dropping the
    last slot removes exactly the task that was at [i]. *)
Lemma overwrite_with_last (ts : list function) (n i : nat) :
  (i < n ≤ length ts)%nat →
  take n ts ≡ₚ ts !!! i :: take (n - 1) (<[i := ts !!! (n - 1)%nat]> ts).
Proof.
  intros Hi.
  destruct (lookup_lt_is_Some_2 ts (n - 1) ltac:(lia)) as [z Hz].
  rewrite (list_lookup_total_correct ts (n - 1) z Hz).
  replace n with (S (n - 1)) at 1 by lia.
  rewrite (take_S_r ts (n - 1) z Hz).
  destruct (decide (i = n - 1)%nat) as [->|Hne].
  - rewrite take_insert_ge by lia.
    rewrite (list_lookup_total_correct ts (n - 1) z Hz).
    by rewrite Permutation_app_comm.
  - destruct (lookup_lt_is_Some_2 ts i ltac:(lia)) as [x Hx].
    rewrite (list_lookup_total_correct ts i x Hx).
    rewrite take_insert_lt by lia.
    assert (take (n - 1) ts !! i = Some x) as Hx'
      by (rewrite lookup_take_lt by lia; done).
    rewrite insert_take_drop by (rewrite length_take; lia).
    rewrite <-(take_drop_middle (take (n - 1) ts) i x Hx') at 1.
    rewrite <-!Permutation_middle, app_nil_r. simpl.
    apply Permutation_swap.
Qed.

Lemma half_bounds (m : Z) : 0 ≤ m → 0 ≤ m ÷ 2 ≤ m.
Proof.
  intros Hm. rewrite Z.quot_div_nonneg by lia.
  Z.div_mod_to_equations. lia.
Qed.

Lemma remove_live index a :
  well_formed a → 0 ≤ index < curr_size a →
  live a ≡ₚ tasks a !!! Z.to_nat index :: live (remove index a).
Proof.
  intros Hwf Hi. destruct (well_formed_bounds a Hwf) as [Hn Hlen].
  rewrite remove_in_range by done.
  set (a1 := mkAsync _ _ _). cbv zeta.
  assert (length (tasks a1) = length (tasks a)) as Hlen1
    by apply length_insert.
  assert (curr_size a1 = curr_size a - 1) as Hn1 by done.
  assert (length (tasks (sort a1)) = length (tasks a)) as Hlen2
    by (rewrite sort_tasks_length; lia).
  assert (live a ≡ₚ tasks a !!! Z.to_nat index :: live (sort a1)) as Hperm.
  { rewrite sort_live by lia. unfold live. rewrite Hn1.
    subst a1. cbn [tasks].
    replace (Z.to_nat (curr_size a - 1))
      with (Z.to_nat (curr_size a) - 1)%nat by lia.
    apply overwrite_with_last. lia. }
  destruct (Z.ltb_spec (curr_size a - 1) (m_size a ÷ 2)) as [Hlt|Hge];
    [|done].
  rewrite Hperm. f_equiv.
  pose proof (half_bounds (m_size a) ltac:(lia)) as Hhalf.
  set (h := m_size a ÷ 2) in *.
  unfold live at 2. rewrite deallocate_tasks by lia.
  change (curr_size (deallocate h (sort a1))) with (curr_size a1).
  rewrite take_take, Nat.min_l by lia. done.
Qed.

Lemma well_formed_remove index a : well_formed a → well_formed (remove index a).
Proof.
  intros Hwf. split; [apply size_invariant_remove, Hwf|].
  destruct (decide (0 ≤ index < curr_size a)) as [Hi|Hi];
    [|rewrite remove_out_of_range by lia; apply Hwf].
  destruct (well_formed_bounds a Hwf) as [Hn Hlen].
  rewrite remove_in_range by done.
  set (a1 := mkAsync _ _ _). cbv zeta.
  assert (length (tasks a1) = length (tasks a)) as Hlen1
    by apply length_insert.
  assert (curr_size a1 = curr_size a - 1) as Hn1 by done.
  assert (length (tasks (sort a1)) = length (tasks a)) as Hlen2
    by (rewrite sort_tasks_length; lia).
  pose proof (half_bounds (m_size a) ltac:(lia)) as Hhalf.
  set (h := m_size a ÷ 2) in *.
  destruct (Z.ltb_spec (curr_size a - 1) h) as [Hlt|Hge].
  - rewrite deallocate_tasks by lia.
    change (m_size (deallocate h (sort a1))) with h.
    rewrite length_take_le; lia.
  - rewrite sort_m_size. change (m_size a1) with (m_size a). lia.
Qed.

Lemma well_formed_sort a : well_formed a → well_formed (sort a).
Proof.
  intros Hwf. destruct (well_formed_bounds a Hwf) as [Hn Hlen].
  split; [apply Hwf|]. rewrite sort_tasks_length by lia. apply Hwf.
Qed.

Lemma well_formed_offsetDelayBy x a :
  well_formed a → well_formed (offsetDelayBy x a).
Proof.
  intros Hwf. destruct (well_formed_bounds a Hwf) as [Hn Hlen].
  split; [apply Hwf|]. rewrite offsetDelayBy_tasks_length by lia. apply Hwf.
Qed.

Lemma well_formed_new : well_formed Async_new.
Proof.
  split; [|done]. split; [simpl; lia|].
  split; [unfold MAX_FUNCTIONARRAY_SIZE; simpl; lia | by exists 0%nat].
Qed.

(** ** The run loop *)

Section RunLoopFacts.

Variable micros : nat → Z.

(** The three ways out of one pass, by the conditions the source tests. *)
Lemma iteration_cases (a : Async) (w : World) (r : Z) :
  run (tasks a !!! 0%nat) (getStep (tasks a !!! 0%nat))
      (getId (tasks a !!! 0%nat)) = Some r →
  let a1 := after_head r a in
  let d := get_delay true (tasks a1 !!! 0%nat) in
  let e := time_spent_in micros w in
  iteration micros a w
  = if curr_size a1 =? 0
    then Some (Break, a1,
               mkWorld (S (clock_reads w)) (events (after_clock a w)))
    else if d <=? e
    then Some (Continue, offsetDelayBy e a1, after_clock a w)
    else Some (Continue, offsetDelayBy (d - e) a1,
               wait (d - e) true (after_clock a w)).
Proof.
  intros Hr. unfold iteration, read_clock. rewrite Hr.
  unfold emit. cbn [mbind option_bind clock_reads events].
  fold (after_head r a). unfold time_spent_in, after_clock.
  destruct (curr_size (after_head r a) =? 0); [done|].
  by destruct (_ <=? _).
Qed.

Lemma iteration_undefined (a : Async) (w : World) :
  m_func (tasks a !!! 0%nat) = None → iteration micros a w = None.
Proof. intros Hnull. unfold iteration, read_clock, run. by rewrite Hnull. Qed.

Section Preservation.

Variable P : Async → Prop.
Hypothesis P_reschedule : ∀ r a, P a → P (reschedule r a).
Hypothesis P_remove : ∀ index a, P a → P (remove index a).
Hypothesis P_sort : ∀ a, P a → P (sort a).
Hypothesis P_offsetDelayBy : ∀ x a, P a → P (offsetDelayBy x a).

Lemma after_head_preserves r a : P a → P (after_head r a).
Proof.
  intros Ha. unfold after_head. apply P_sort. destruct (0 <? r); auto.
Qed.

Lemma iteration_preserves a w flow a' w' :
  P a → iteration micros a w = Some (flow, a', w') → P a'.
Proof.
  intros Ha Hit.
  destruct (run (tasks a !!! 0%nat) (getStep (tasks a !!! 0%nat))
              (getId (tasks a !!! 0%nat))) as [r|] eqn:Hr.
  - rewrite (iteration_cases a w r Hr) in Hit. cbv zeta in Hit.
    pose proof (after_head_preserves r a Ha) as H1.
    destruct (curr_size (after_head r a) =? 0); [by simplify_eq|].
    destruct (_ <=? _); simplify_eq; by apply P_offsetDelayBy.
  - unfold run in Hr.
    destruct (m_func (tasks a !!! 0%nat)) eqn:Hf; [done|].
    by rewrite iteration_undefined in Hit.
Qed.

Lemma run_until_complete_preserves fuel a w :
  P a →
  match run_until_complete micros fuel a w with
  | Completed a' _ | Running a' _ => P a'
  | Undefined => True
  end.
Proof.
  revert a w. induction fuel as [|fuel IH]; intros a w Ha; simpl.
  - by destruct (0 <? curr_size a).
  - destruct (0 <? curr_size a); [|done].
    destruct (iteration micros a w) as [[[flow a'] w']|] eqn:Hit; [|done].
    pose proof (iteration_preserves _ _ _ _ _ Ha Hit).
    destruct flow; [by apply IH | done].
Qed.

End Preservation.

Lemma size_invariant_reschedule r a :
  size_invariant a → size_invariant (reschedule r a).
Proof. done. Qed.

Lemma well_formed_reschedule r a : well_formed a → well_formed (reschedule r a).
Proof.
  intros [Hs Hlen]. split; [done|]. unfold reschedule. simpl.
  by rewrite length_insert.
Qed.

End RunLoopFacts.

Lemma public_step_preserves (P : Async → Prop) :
  (∀ fw a, P a → P (add fw a)) →
  (∀ r a, P a → P (reschedule r a)) →
  (∀ index a, P a → P (remove index a)) →
  (∀ a, P a → P (sort a)) →
  (∀ x a, P a → P (offsetDelayBy x a)) →
  ∀ a a', P a → public_step a a' → P a'.
Proof.
  intros Hadd Hres Hrem Hsort Hoff a a' Ha Hstep.
  destruct Hstep as [| | | |micros fuel a w a' w' Hrun
                    |micros fuel a w a' w' Hrun]; auto.
  - pose proof (run_until_complete_preserves micros P Hres Hrem Hsort Hoff
                  fuel a w Ha) as H.
    by rewrite Hrun in H.
  - pose proof (run_until_complete_preserves micros P Hres Hrem Hsort Hoff
                  fuel a w Ha) as H.
    by rewrite Hrun in H.
Qed.

Lemma well_formed_step a a' : well_formed a → public_step a a' → well_formed a'.
Proof.
  apply public_step_preserves;
    auto using well_formed_add, well_formed_reschedule, well_formed_remove,
               well_formed_sort, well_formed_offsetDelayBy.
Qed.

Lemma well_formed_reachable a : reachable a → well_formed a.
Proof.
  induction 1; [apply well_formed_new | by eapply well_formed_step].
Qed.

Lemma well_formed_add_all fs a : well_formed a → well_formed (add_all fs a).
Proof.
  revert a. induction fs as [|fw fs IH]; intros a Ha; [done|].
  apply IH. by apply well_formed_add.
Qed.

Lemma add_all_curr_size fs a :
  0 ≤ curr_size a ≤ MAX_FUNCTIONARRAY_SIZE →
  curr_size (add_all fs a)
  = Z.min MAX_FUNCTIONARRAY_SIZE (curr_size a + Z.of_nat (length fs)).
Proof.
  revert a. induction fs as [|fw fs IH]; intros a Ha; simpl.
  - lia.
  - fold (add_all fs (add fw a)). rewrite IH; rewrite add_curr_size;
      destruct (Z.leb_spec MAX_FUNCTIONARRAY_SIZE (curr_size a)); lia.
Qed.

Lemma add_all_snoc fs fw a : add_all (fs ++ [fw]) a = add fw (add_all fs a).
Proof. unfold add_all. by rewrite foldl_app. Qed.

Lemma add_all_live fs a :
  well_formed a →
  curr_size a + Z.of_nat (length fs) ≤ MAX_FUNCTIONARRAY_SIZE →
  live (add_all fs a) = live a ++ fs.
Proof.
  revert a. induction fs as [|fw fs IH]; intros a Ha Hroom; simpl in *.
  - by rewrite app_nil_r.
  - fold (add_all fs (add fw a)).
    rewrite IH, add_live, <-?app_assoc; try done; try lia.
    + by apply well_formed_add.
    + rewrite add_curr_size.
      destruct (Z.leb_spec MAX_FUNCTIONARRAY_SIZE (curr_size a)); lia.
Qed.

(** ** A registry holding a single task *)

Lemma wait_calls time microseconds w :
  calls (events (wait time microseconds w)) = calls (events w).
Proof.
  unfold wait, emit, calls.
  destruct microseconds, (16383 <? time); simpl;
    by rewrite omap_app, app_nil_r.
Qed.

Lemma after_clock_calls a w :
  calls (events (after_clock a w))
  = calls (events w)
    ++ [(getStep (tasks a !!! 0%nat), getId (tasks a !!! 0%nat))].
Proof. unfold after_clock, calls. simpl. by rewrite omap_app. Qed.

(** With one live task the outer loop of [sort] has nothing to do. *)
Lemma sort_one a : curr_size a = 1 → sort a = a.
Proof.
  intros Hn. destruct a as [m n ts]. simpl in Hn. subst n.
  reflexivity.
Qed.

Lemma offsetDelayBy_one x a t :
  curr_size a = 1 → tasks a !! 0%nat = Some t →
  curr_size (offsetDelayBy x a) = 1 ∧
  tasks (offsetDelayBy x a) !! 0%nat = Some (offset_task x t).
Proof.
  intros Hn Ht. split; [done|].
  unfold offsetDelayBy. rewrite Hn. simpl. unfold offset_body.
  rewrite (list_lookup_total_correct _ _ _ Ht). fold (offset_task x t).
  assert (<[0%nat := offset_task x t]> (tasks a) !! 0%nat
          = Some (offset_task x t)) as Hins
    by (apply list_lookup_insert_eq; by eapply lookup_lt_Some).
  unfold offset_task in *. by destruct (x <=? get_delay true t).
Qed.

(** A pass over a single task whose callback asks to be run again. *)
Lemma single_pass_again micros f s i a w :
  only_task f s i a → 0 < f s i →
  ∃ a' w',
    iteration micros a w = Some (Continue, a', w') ∧
    only_task f (wrap (s + 1)) i a' ∧
    calls (events w') = calls (events w) ++ [(s, i)].
Proof.
  intros (Hn & d & Ht) Hr.
  pose proof (list_lookup_total_correct _ _ _ Ht) as Ht0.
  assert (run (tasks a !!! 0%nat) (getStep (tasks a !!! 0%nat))
            (getId (tasks a !!! 0%nat)) = Some (f s i)) as Hrun
    by (by rewrite Ht0).
  rewrite (iteration_cases micros a w (f s i) Hrun). cbv zeta.
  pose proof (after_clock_calls a w) as Hcalls. rewrite Ht0 in Hcalls.
  assert (after_head (f s i) a = reschedule (f s i) a) as ->.
  { unfold after_head. destruct (Z.ltb_spec 0 (f s i)); [|lia].
    by apply sort_one. }
  set (t' := mkFunction (Some f) (f s i) (wrap (s + 1)) i).
  assert (tasks (reschedule (f s i) a) !! 0%nat = Some t') as Ht'.
  { unfold reschedule. rewrite Ht0. simpl.
    apply list_lookup_insert_eq. by eapply lookup_lt_Some. }
  assert (curr_size (reschedule (f s i) a) = 1) as Hn' by done.
  rewrite Hn'. change (1 =? 0) with false. cbv iota.
  assert (∀ x, only_task f (wrap (s + 1)) i
                 (offsetDelayBy x (reschedule (f s i) a))) as Honly.
  { intros x.
    destruct (offsetDelayBy_one x _ t' Hn' Ht') as [Hn'' Ht''].
    split; [done|]. rewrite Ht''. unfold offset_task, t'. simpl.
    destruct (x <=? f s i); by eexists. }
  destruct (_ <=? _); eexists _, _; (split; [done|]); (split; [done|]).
  - done.
  - by rewrite wait_calls.
Qed.

(** A pass over a single task whose callback returns 0. *)
Lemma single_pass_done micros f s i a w :
  only_task f s i a → f s i = 0 →
  ∃ a' w',
    iteration micros a w = Some (Break, a', w') ∧
    curr_size a' = 0 ∧
    calls (events w') = calls (events w) ++ [(s, i)].
Proof.
  intros (Hn & d & Ht) Hr.
  pose proof (list_lookup_total_correct _ _ _ Ht) as Ht0.
  assert (run (tasks a !!! 0%nat) (getStep (tasks a !!! 0%nat))
            (getId (tasks a !!! 0%nat)) = Some 0) as Hrun
    by (by rewrite Ht0, <-Hr).
  rewrite (iteration_cases micros a w 0 Hrun). cbv zeta.
  pose proof (after_clock_calls a w) as Hcalls. rewrite Ht0 in Hcalls.
  assert (curr_size (after_head 0 a) = 0) as Hempty.
  { unfold after_head. change (0 <? 0) with false. cbv iota.
    rewrite sort_curr_size, remove_curr_size; lia. }
  rewrite Hempty. change (0 =? 0) with true. cbv iota.
  eexists _, _. split; [done|]. split; [done|]. done.
Qed.

Lemma run_until_complete_again micros fuel a w a' w' :
  0 < curr_size a →
  iteration micros a w = Some (Continue, a', w') →
  run_until_complete micros (S fuel) a w = run_until_complete micros fuel a' w'.
Proof.
  intros Hn Hit. simpl. rewrite Hit.
  by destruct (Z.ltb_spec 0 (curr_size a)); [|lia].
Qed.

Lemma run_until_complete_break micros fuel a w a' w' :
  0 < curr_size a →
  iteration micros a w = Some (Break, a', w') →
  run_until_complete micros (S fuel) a w = Completed a' w'.
Proof.
  intros Hn Hit. simpl. rewrite Hit.
  by destruct (Z.ltb_spec 0 (curr_size a)); [|lia].
Qed.

(** * The properties of the registry *)

(** ** Ordering *)

(** C1.  The design asks that after [sort()] every adjacent pair of live
    tasks is in ascending order of delay.  The routine does not deliver it:
    [smallestIndex] is initialised once, before the outer loop, and is not
    reset to [currentIndex] at the start of each selection pass.  Three tasks
    added with delays 1, 2, 3 come out of [sort()] with delays 2, 1, 3. *)
Theorem sort_breaks_order :
  delays (live (registry_of_delays [1; 2; 3])) = [1; 2; 3] ∧
  delays (live (sort (registry_of_delays [1; 2; 3]))) = [2; 1; 3] ∧
  ¬ sorted_by_delay (sort (registry_of_delays [1; 2; 3])).
Proof.
  split; [vm_compute; reflexivity|]. split; [vm_compute; reflexivity|].
  intros Hsorted.
  assert (get_delay true (with_delay 2) ≤ get_delay true (with_delay 1)) as H.
  { apply (Hsorted 0%nat); vm_compute; reflexivity. }
  vm_compute in H. by apply H.
Qed.

(** C4.  Calling [sort()] twice is asked to give the same sequence as
    calling it once.  For the registry with delays 1, 2, 3 the first call
    yields 2, 1, 3 and the second call yields 1, 2, 3: the same stale
    [smallestIndex] as in C1. *)
Theorem sort_not_idempotent :
  delays (live (sort (registry_of_delays [1; 2; 3]))) = [2; 1; 3] ∧
  delays (live (sort (sort (registry_of_delays [1; 2; 3])))) = [1; 2; 3] ∧
  sort (sort (registry_of_delays [1; 2; 3]))
  ≠ sort (registry_of_delays [1; 2; 3]).
Proof.
  split; [vm_compute; reflexivity|]. split; [vm_compute; reflexivity|].
  intros Heq. apply (f_equal (λ a, delays (live a))) in Heq.
  vm_compute in Heq. discriminate Heq.
Qed.

(** C10.  [sort()] only permutes the live tasks: the live range after the
    call is a permutation of the live range before it, [curr_size] and
    [m_size] are unchanged, every slot it reads or writes has an index below
    [curr_size], and the slots behind the live range keep their contents. *)
Theorem sort_permutes_live (a : Async) :
  well_formed a →
  live (sort a) ≡ₚ live a ∧
  curr_size (sort a) = curr_size a ∧
  m_size (sort a) = m_size a ∧
  Forall (λ i, Z.of_nat i < curr_size a) (sort_touched a) ∧
  drop (Z.to_nat (curr_size a)) (tasks (sort a))
  = drop (Z.to_nat (curr_size a)) (tasks a).
Proof.
  intros Hwf. destruct (well_formed_bounds a Hwf) as [Hn _].
  split; [apply sort_live; lia|]. split; [done|]. split; [done|].
  split; [apply sort_touched_live; lia | apply sort_rest; lia].
Qed.

(** ** Capacity *)

(** C5.  After 33 calls of [add()] on a registry, [size()] is 32; once the
    registry is full a further [add()] returns it unchanged (same array,
    same [curr_size], same [m_size]); and when the 33 calls start from an
    empty registry it is the last of them that is dropped. *)
Theorem add_beyond_capacity (fs : list function) (a : Async) :
  size_invariant a →
  Z.of_nat (length fs) = MAX_FUNCTIONARRAY_SIZE + 1 →
  size (add_all fs a) = MAX_FUNCTIONARRAY_SIZE ∧
  (∀ fw, add fw (add_all fs a) = add_all fs a) ∧
  (curr_size a = 0 →
   ∀ fs0 fw, fs = fs0 ++ [fw] →
     size (add_all fs0 a) = MAX_FUNCTIONARRAY_SIZE ∧
     add_all fs a = add_all fs0 a).
Proof.
  intros (Hn & Hm & _) Hlen.
  assert (size (add_all fs a) = MAX_FUNCTIONARRAY_SIZE) as Hfull.
  { unfold size. rewrite add_all_curr_size by lia. lia. }
  split; [done|]. split.
  - intros fw. apply add_full. unfold size in Hfull. lia.
  - intros Hempty fs0 fw ->. rewrite length_app in Hlen. simpl in Hlen.
    assert (size (add_all fs0 a) = MAX_FUNCTIONARRAY_SIZE) as Hfull0.
    { unfold size. rewrite add_all_curr_size by lia. lia. }
    split; [done|]. rewrite add_all_snoc. apply add_full.
    unfold size in Hfull0. lia.
Qed.

(** C8.  Every public operation (add, remove, sort, offsetDelayBy, and
    run_until_complete observed after any number of passes or on return)
    preserves [0 <= curr_size <= m_size <= 32] with [m_size] a power of two;
    so the bounds hold, and [max_size() >= size()], in every state reachable
    from the freshly constructed registry. *)
Theorem size_invariant_preserved :
  (∀ a a', size_invariant a → public_step a a' → size_invariant a') ∧
  (∀ a, reachable a → size_invariant a ∧ size a ≤ max_size a).
Proof.
  assert (∀ a a', size_invariant a → public_step a a' → size_invariant a')
    as Hstep.
  { apply public_step_preserves;
      auto using size_invariant_add, size_invariant_reschedule,
                 size_invariant_remove, size_invariant_sort,
                 size_invariant_offsetDelayBy. }
  split; [done|].
  assert (∀ a, reachable a → size_invariant a) as Hreach.
  { induction 1; [apply well_formed_new | by eapply Hstep]. }
  intros a Ha. split; [by apply Hreach|].
  destruct (Hreach a Ha) as (Hn & _). unfold size, max_size. lia.
Qed.

(** ** Removal *)

(** C6.  For a registry of size [n] and an index [0 <= index < n],
    [remove(index)] yields a registry of size [n - 1] whose live tasks are
    the original live tasks minus the one that was at [index]. *)
Theorem remove_drops_indexed (a : Async) (index : Z) :
  well_formed a →
  0 ≤ index < curr_size a →
  size (remove index a) = size a - 1 ∧
  ∃ t, live a !! Z.to_nat index = Some t ∧
       live a ≡ₚ t :: live (remove index a).
Proof.
  intros Hwf Hi. destruct (well_formed_bounds a Hwf) as [Hn _].
  split; [by apply remove_curr_size|].
  exists (tasks a !!! Z.to_nat index). split.
  - unfold live. rewrite lookup_take_lt by lia.
    apply list_lookup_lookup_total_lt. lia.
  - by apply remove_live.
Qed.

(** ** Advancing the delays *)

(** C9, as the code has it.  For amounts [x1], [x2] of type [unsigned long]
    whose sum is again an [unsigned long] (at most 4294967295),
    [offsetDelayBy(x1)] followed by [offsetDelayBy(x2)] gives the same
    registry as [offsetDelayBy(x1 + x2)], and a task whose delay was [d] ends
    with delay [max(0, d - (x1 + x2))]. *)
Theorem offsetDelayBy_twice (a : Async) (x1 x2 : Z) :
  well_formed a →
  is_ulong x1 → is_ulong x2 → x1 + x2 ≤ ULONG_MAX →
  offsetDelayBy x2 (offsetDelayBy x1 a) = offsetDelayBy (wrap (x1 + x2)) a ∧
  delays (live (offsetDelayBy x2 (offsetDelayBy x1 a)))
  = (λ d, Z.max 0 (d - (x1 + x2))) <$> delays (live a).
Proof.
  intros Hwf [H1 _] [H2 _] Hsum.
  destruct (well_formed_bounds a Hwf) as [Hn _].
  assert (wrap (x1 + x2) = x1 + x2) as ->.
  { apply Z.mod_small. unfold ULONG_MAX in Hsum. lia. }
  assert (offsetDelayBy x2 (offsetDelayBy x1 a) = offsetDelayBy (x1 + x2) a)
    as Heq.
  { assert (tasks (offsetDelayBy x2 (offsetDelayBy x1 a))
            = tasks (offsetDelayBy (x1 + x2) a)) as Hts.
    { rewrite (offsetDelayBy_tasks x2)
        by (rewrite offsetDelayBy_tasks_length; simpl; lia).
      rewrite offsetDelayBy_live by lia.
      rewrite !offsetDelayBy_tasks by lia.
      change (curr_size (offsetDelayBy x1 a)) with (curr_size a).
      rewrite drop_app_length'
        by (unfold live; rewrite length_fmap, length_take_le; lia).
      f_equal. rewrite <-list_fmap_compose.
      apply list_fmap_ext. intros _ t _. by apply offset_task_twice. }
    unfold offsetDelayBy in *. simpl in *. by rewrite Hts. }
  split; [done|]. rewrite Heq, offsetDelayBy_live by lia.
  unfold delays. rewrite <-!list_fmap_compose.
  apply list_fmap_ext. intros _ t _. simpl. apply offset_task_delay. lia.
Qed.

(** ** The run loop *)

(** The sleeping branch of a pass, in general.  When the head task's
    callback returned [r], the registry is non-empty after the head task was
    handled and the registry re-sorted, and the measured time [e] is
    strictly below the new head task's delay [d], the pass calls
    [wait(d - e)] and then [offsetDelayBy(d - e)]: the amount handed to
    [wait], not the time [d] that has gone by since the pass began. *)
Lemma sleep_then_offset (micros : nat → Z) (a : Async) (w : World) (r : Z) :
  well_formed a →
  run (tasks a !!! 0%nat) (getStep (tasks a !!! 0%nat))
      (getId (tasks a !!! 0%nat)) = Some r →
  curr_size (after_head r a) ≠ 0 →
  time_spent_in micros w < head_delay (after_head r a) →
  let a1 := after_head r a in
  let slept := head_delay a1 - time_spent_in micros w in
  iteration micros a w
  = Some (Continue, offsetDelayBy slept a1,
          wait slept true (after_clock a w)) ∧
  delays (live (offsetDelayBy slept a1))
  = (λ d, Z.max 0 (d - slept)) <$> delays (live a1).
Proof.
  intros Hwf Hr Hne Hlt a1 slept. split.
  - rewrite (iteration_cases micros a w r Hr). cbv zeta.
    fold a1. fold (head_delay a1).
    destruct (Z.eqb_spec (curr_size a1) 0); [done|].
    destruct (Z.leb_spec (head_delay a1) (time_spent_in micros w)); [|done].
    unfold a1 in *. lia.
  - assert (well_formed a1) as Hwf1.
    { apply after_head_preserves;
        auto using well_formed_reschedule, well_formed_remove,
                   well_formed_sort. }
    destruct (well_formed_bounds a1 Hwf1) as [Hn _].
    rewrite offsetDelayBy_live by lia.
    unfold delays. rewrite <-!list_fmap_compose.
    apply list_fmap_ext. intros _ t _. simpl. apply offset_task_delay.
    unfold slept, a1. lia.
Qed.

(** C2.  After a sleep the engine is asked to advance every delay by the
    head delay [d], the time that has gone by since the pass began
    ([e] spent running plus [d - e] asleep).  The sleeping branch hands
    [d - e] to [offsetDelayBy] instead, so the time [e] is lost for every
    waiting task; the branch without sleep does deduct all the time since
    the pass began.  On [two_waiting] the first task returns 500 and the
    delays are 500 and 1000 after the re-sort.  With 100 microseconds spent
    the engine sleeps 400 and leaves the delays 100 and 600, where 0 and 500
    are due; with 700 microseconds spent it does not sleep and leaves 0 and
    300, all 700 deducted.  Past 16383 microseconds the sleep itself is
    shorter than the amount deducted: a task returning 20600 with 100 spent
    is slept for as [delay(20)] while 20500 is deducted. *)
Theorem sleep_branch_drops_time_spent :
  delays (live (after_head 500 two_waiting)) = [500; 1000] ∧
  time_spent_in tick_100 world_start = 100 ∧
  iteration tick_100 two_waiting world_start
  = Some (Continue, offsetDelayBy 400 (after_head 500 two_waiting),
          mkWorld 2 [Run 1 0; DelayMicroseconds 400]) ∧
  delays (live (offsetDelayBy 400 (after_head 500 two_waiting))) = [100; 600] ∧
  (λ d, Z.max 0 (d - 500)) <$> delays (live (after_head 500 two_waiting))
  = [0; 500] ∧
  time_spent_in tick_700 world_start = 700 ∧
  iteration tick_700 two_waiting world_start
  = Some (Continue, offsetDelayBy 700 (after_head 500 two_waiting),
          mkWorld 2 [Run 1 0]) ∧
  delays (live (offsetDelayBy 700 (after_head 500 two_waiting))) = [0; 300] ∧
  iteration tick_100 (add (function_of every_20600) Async_new) world_start
  = Some (Continue,
          offsetDelayBy 20500
            (after_head 20600 (add (function_of every_20600) Async_new)),
          mkWorld 2 [Run 1 0; Delay 20]).
Proof. repeat split; vm_compute; reflexivity. Qed.

(** C3.  Started on a registry with exactly one registered task, at step 1,
    whose callback returns 500 for the step values 1, 2, 3 and 0 for the
    step value 4, the loop returns (four passes suffice), has invoked the
    callback exactly four times with the step values 1, 2, 3, 4 in that
    order, and leaves an empty registry.  This holds for every clock and
    whatever the delay and the id [i] of the task are. *)
Theorem four_step_task (micros : nat → Z) (f : callback) (i : Z)
    (a : Async) (fuel : nat) (w : World) :
  only_task f 1 i a →
  f 1 i = 500 → f 2 i = 500 → f 3 i = 500 → f 4 i = 0 →
  (4 ≤ fuel)%nat →
  ∃ a' w',
    run_until_complete micros fuel a w = Completed a' w' ∧
    size a' = 0 ∧
    calls (events w') = calls (events w) ++ [(1, i); (2, i); (3, i); (4, i)].
Proof.
  intros Ha F1 F2 F3 F4 Hfuel.
  do 4 (destruct fuel as [|fuel]; [lia|]).
  destruct (single_pass_again micros f 1 i a w Ha ltac:(lia))
    as (a1 & w1 & Hit1 & Ha1 & Hc1).
  change (wrap (1 + 1)) with 2 in Ha1.
  destruct (single_pass_again micros f 2 i a1 w1 Ha1 ltac:(lia))
    as (a2 & w2 & Hit2 & Ha2 & Hc2).
  change (wrap (2 + 1)) with 3 in Ha2.
  destruct (single_pass_again micros f 3 i a2 w2 Ha2 ltac:(lia))
    as (a3 & w3 & Hit3 & Ha3 & Hc3).
  change (wrap (3 + 1)) with 4 in Ha3.
  destruct (single_pass_done micros f 4 i a3 w3 Ha3 F4)
    as (a4 & w4 & Hit4 & Hn4 & Hc4).
  exists a4, w4.
  assert (∀ s b, only_task f s i b → 0 < curr_size b) as Hpos
    by (intros s b [-> _]; lia).
  rewrite (run_until_complete_again micros _ a w a1 w1 (Hpos _ _ Ha) Hit1).
  rewrite (run_until_complete_again micros _ a1 w1 a2 w2 (Hpos _ _ Ha1) Hit2).
  rewrite (run_until_complete_again micros _ a2 w2 a3 w3 (Hpos _ _ Ha2) Hit3).
  rewrite (run_until_complete_break micros _ a3 w3 a4 w4 (Hpos _ _ Ha3) Hit4).
  split; [done|]. split; [done|].
  rewrite Hc4, Hc3, Hc2, Hc1, <-!app_assoc. done.
Qed.

(** ** Concrete runs *)

(** Establishes [well_formed] for a closed registry whose capacity is
    [2 ^ k]. *)
Ltac closed_registry k :=
  split;
  [ split; [split; by vm_compute
           | split; [by vm_compute | exists k; by vm_compute]]
  | by vm_compute ].

(** The sum of two [unsigned long] amounts can wrap: with [x1 = 4294967295]
    and [x2 = 1] the argument [x1 + x2] of the single call is 0, and a task
    with delay 5 keeps its delay, whereas the two calls in sequence bring it
    to 0. *)
Lemma offsetDelayBy_sum_wraps :
  is_ulong 4294967295 ∧ is_ulong 1 ∧
  delays (live (offsetDelayBy 1
                  (offsetDelayBy 4294967295 (registry_of_delays [5])))) = [0] ∧
  delays (live (offsetDelayBy (wrap (4294967295 + 1))
                  (registry_of_delays [5]))) = [5] ∧
  Z.max 0 (5 - (4294967295 + 1)) = 0.
Proof. repeat split; by vm_compute. Qed.

Lemma offsetDelayBy_twice_witness :
  delays (live (offsetDelayBy 4 (offsetDelayBy 3 (registry_of_delays [5; 700]))))
  = (λ d, Z.max 0 (d - (3 + 4))) <$> delays (live (registry_of_delays [5; 700])).
Proof.
  apply (offsetDelayBy_twice (registry_of_delays [5; 700]) 3 4).
  - closed_registry 1%nat.
  - split; by vm_compute.
  - split; by vm_compute.
  - by vm_compute.
Defined.

Lemma sleep_then_offset_witness :
  iteration tick_100 (add (function_of every_500) Async_new) world_start
  = Some (Continue,
          offsetDelayBy
            (head_delay (after_head 500 (add (function_of every_500) Async_new))
             - time_spent_in tick_100 world_start)
            (after_head 500 (add (function_of every_500) Async_new)),
          wait
            (head_delay (after_head 500 (add (function_of every_500) Async_new))
             - time_spent_in tick_100 world_start)
            true
            (after_clock (add (function_of every_500) Async_new) world_start)).
Proof.
  apply (sleep_then_offset tick_100
           (add (function_of every_500) Async_new) world_start 500).
  - closed_registry 0%nat.
  - reflexivity.
  - by vm_compute.
  - by vm_compute.
Defined.

Lemma four_step_task_witness :
  ∃ a' w',
    run_until_complete tick_100 4
      (add (function_of three_then_done) Async_new) world_start
    = Completed a' w' ∧
    size a' = 0 ∧
    calls (events w')
    = calls (events world_start) ++ [(1, 0); (2, 0); (3, 0); (4, 0)].
Proof.
  apply (four_step_task tick_100 three_then_done 0
           (add (function_of three_then_done) Async_new) 4 world_start).
  - split; [reflexivity | by exists 0].
  - reflexivity.
  - reflexivity.
  - reflexivity.
  - reflexivity.
  - lia.
Defined.

Lemma sort_permutes_live_witness :
  live (sort (registry_of_delays [1; 2; 3]))
  ≡ₚ live (registry_of_delays [1; 2; 3]).
Proof.
  apply (sort_permutes_live (registry_of_delays [1; 2; 3])).
  closed_registry 2%nat.
Defined.

Lemma add_beyond_capacity_witness :
  size (add_all (replicate 33 (with_delay 1)) Async_new)
  = MAX_FUNCTIONARRAY_SIZE.
Proof.
  apply (add_beyond_capacity (replicate 33 (with_delay 1)) Async_new).
  - split; [split; by vm_compute|].
    split; [by vm_compute | exists 0%nat; by vm_compute].
  - by vm_compute.
Defined.

Lemma size_invariant_preserved_witness :
  size_invariant (remove 0 (add (with_delay 1) Async_new)).
Proof.
  apply (proj1 size_invariant_preserved (add (with_delay 1) Async_new)).
  - split; [split; by vm_compute|].
    split; [by vm_compute | exists 0%nat; by vm_compute].
  - apply step_remove.
Defined.

Lemma remove_drops_indexed_witness :
  size (remove 1 (registry_of_delays [5; 4; 3]))
  = size (registry_of_delays [5; 4; 3]) - 1.
Proof.
  apply (remove_drops_indexed (registry_of_delays [5; 4; 3]) 1).
  - closed_registry 2%nat.
  - split; by vm_compute.
Defined.

(** * Further properties of the code *)

(** ** The sleep helper and the delay accessors *)

(** X1.  [wait(time)] in microsecond mode performs exactly one sleep and
    leaves the clock-read count alone.  Up to 16383 microseconds it sleeps
    exactly [time]; above, it calls [delay(time / 1000)], which never sleeps
    longer than asked and falls short by less than one millisecond. *)
Theorem wait_sleeps_once (time : Z) (w : World) :
  0 ≤ time →
  ∃ e, wait time true w = emit e w ∧
       (time ≤ 16383 → e = DelayMicroseconds time) ∧
       (16383 < time → e = Delay (time / 1000)) ∧
       time - 1000 < slept_us e ≤ time.
Proof.
  intros Ht. unfold wait. simpl.
  destruct (Z.ltb_spec 16383 time) as [Hbig|Hsmall].
  - exists (Delay (time / 1000)). split; [done|].
    split; [lia|]. split; [done|]. simpl.
    pose proof (Z.div_mod time 1000 ltac:(lia)).
    pose proof (Z.mod_pos_bound time 1000 ltac:(lia)). lia.
  - exists (DelayMicroseconds time). split; [done|].
    split; [done|]. split; [lia|]. simpl. lia.
Qed.

Lemma wait_sleeps_once_witness :
  ∃ e, wait 20500 true world_start = emit e world_start ∧
       (20500 ≤ 16383 → e = DelayMicroseconds 20500) ∧
       (16383 < 20500 → e = Delay (20500 / 1000)) ∧
       20500 - 1000 < slept_us e ≤ 20500.
Proof. apply (wait_sleeps_once 20500 world_start). lia. Defined.

(** X2.  A delay set in milliseconds is stored as [delay * 1000]
    microseconds and read back unchanged in either unit as long as
    [delay <= 4294967]; the other fields are untouched.  One millisecond
    more and the stored value has wrapped: 4294968 ms reads back as 0 ms. *)
Theorem delay_ms_round_trip (delay : Z) (f : function) :
  0 ≤ delay ≤ MAX_DELAY_MS →
  get_delay false (set_delay delay false f) = delay ∧
  get_delay true (set_delay delay false f) = delay * 1000 ∧
  m_func (set_delay delay false f) = m_func f ∧
  getStep (set_delay delay false f) = getStep f ∧
  getId (set_delay delay false f) = getId f ∧
  get_delay false (set_delay (MAX_DELAY_MS + 1) false f) = 0.
Proof.
  intros Hd. change MAX_DELAY_MS with 4294967 in *.
  unfold get_delay, set_delay. simpl.
  assert (wrap (delay * 1000) = delay * 1000) as ->.
  { apply Z.mod_small. change ULONG_MODULUS with 4294967296. lia. }
  split; [apply Z.div_mul; lia|]. repeat split; by vm_compute.
Qed.

Lemma delay_ms_round_trip_witness :
  get_delay false (set_delay 250 false (function_of idle)) = 250.
Proof.
  apply (delay_ms_round_trip 250 (function_of idle)).
  split; by vm_compute.
Defined.

(** X3.  The time a pass measures is right across an overflow of
    [micros()]: if the clock advanced by [elapsed] microseconds between the
    two readings of a pass, with [elapsed] an [unsigned long], the measured
    time is [elapsed], whatever the clock showed at the first reading. *)
Theorem time_spent_survives_wrap (micros : nat → Z) (w : World) (elapsed : Z) :
  is_ulong elapsed →
  micros (S (clock_reads w)) = micros (clock_reads w) + elapsed →
  time_spent_in micros w = elapsed.
Proof.
  intros [Hlo Hhi] Hadv. unfold time_spent_in, wrap. rewrite Hadv.
  rewrite Zminus_mod_idemp_l, Zminus_mod_idemp_r.
  replace (micros (clock_reads w) + elapsed - micros (clock_reads w))
    with elapsed by lia.
  apply Z.mod_small. unfold ULONG_MAX in Hhi. lia.
Qed.

Lemma time_spent_survives_wrap_witness :
  time_spent_in (λ k, 4294967290 + 100 * Z.of_nat k) world_start = 100.
Proof.
  apply (time_spent_survives_wrap
           (λ k, 4294967290 + 100 * Z.of_nat k) world_start 100).
  - split; by vm_compute.
  - reflexivity.
Defined.

(** ** Adding and removing *)

Lemma live_lookup a (i : nat) :
  (Z.of_nat i < curr_size a) → live a !! i = tasks a !! i.
Proof. intros Hi. unfold live. apply lookup_take_lt. lia. Qed.

Lemma capacity_tight_add fw a :
  size_invariant a → capacity_tight a → capacity_tight (add fw a).
Proof.
  intros (Hn & Hm & Hk) Ht. unfold capacity_tight in *.
  rewrite add_curr_size, add_m_size.
  destruct (Z.leb_spec MAX_FUNCTIONARRAY_SIZE (curr_size a)); [done|].
  destruct (Z.leb_spec (m_size a) (curr_size a)); lia.
Qed.

Lemma capacity_tight_remove index a :
  size_invariant a → capacity_tight a → capacity_tight (remove index a).
Proof.
  intros (Hn & Hm & Hk) Ht.
  destruct (decide (0 ≤ index < curr_size a)) as [Hi|Hi];
    [|by rewrite remove_out_of_range by lia].
  unfold capacity_tight in *.
  rewrite remove_curr_size, remove_m_size by done.
  destruct (decide (m_size a = 1)) as [E|Hbig].
  - rewrite E. change (1 ÷ 2) with 0.
    destruct (Z.ltb_spec (curr_size a - 1) 0); [lia | by left].
  - pose proof (pow2_pos _ Hk).
    destruct (pow2_halve (m_size a) ltac:(lia) Hk) as [Hhalf _].
    set (h := m_size a ÷ 2) in *.
    destruct (Z.ltb_spec (curr_size a - 1) h); lia.
Qed.

(** The size bounds together with tight capacity, in every reachable
    state. *)
Lemma tight_reachable a : reachable a → size_invariant a ∧ capacity_tight a.
Proof.
  induction 1 as [|a a' _ IH Hstep].
  - split; [apply well_formed_new | by left].
  - revert IH Hstep.
    apply (public_step_preserves (λ r, size_invariant r ∧ capacity_tight r)).
    + intros fw r [Hs Ht].
      split; [by apply size_invariant_add | by apply capacity_tight_add].
    + done.
    + intros index r [Hs Ht].
      split; [by apply size_invariant_remove | by apply capacity_tight_remove].
    + done.
    + done.
Qed.

Lemma reachable_add_all fs a : reachable a → reachable (add_all fs a).
Proof.
  revert a. induction fs as [|fw fs IH]; intros a Ha; [done|].
  apply IH. eapply reachable_step; [exact Ha | apply step_add].
Qed.

(** X4.  On a registry that is not full, [add] keeps the registered tasks
    where they are and stores the new task, unchanged, behind them; the
    size grows by one, and the capacity doubles exactly when the registry
    was filled to capacity. *)
Theorem add_appends (fw : function) (a : Async) :
  well_formed a →
  curr_size a < MAX_FUNCTIONARRAY_SIZE →
  live (add fw a) = live a ++ [fw] ∧
  size (add fw a) = size a + 1 ∧
  max_size (add fw a)
  = (if decide (curr_size a = m_size a) then 2 * max_size a else max_size a).
Proof.
  intros Hwf Hroom. destruct (well_formed_bounds a Hwf) as [Hn Hlen].
  split; [by apply add_live|]. unfold size, max_size.
  rewrite add_curr_size, add_m_size.
  destruct (Z.leb_spec MAX_FUNCTIONARRAY_SIZE (curr_size a)); [lia|].
  split; [done|].
  destruct (Z.leb_spec (m_size a) (curr_size a)); case_decide; lia.
Qed.

Lemma add_appends_witness :
  live (add (with_delay 9) (registry_of_delays [5; 4]))
  = live (registry_of_delays [5; 4]) ++ [with_delay 9].
Proof.
  apply (add_appends (with_delay 9) (registry_of_delays [5; 4])).
  - closed_registry 1%nat.
  - by vm_compute.
Defined.

(** X6.  Adding at most 32 tasks to a new registry registers all of them,
    in the order of the calls: [size()] is their number, the live range is
    the sequence of the tasks added, and [max_size()] is at least the size
    and, from the second task on, at most twice the size. *)
Theorem adds_from_new (fs : list function) :
  Z.of_nat (length fs) ≤ MAX_FUNCTIONARRAY_SIZE →
  live (add_all fs Async_new) = fs ∧
  size (add_all fs Async_new) = Z.of_nat (length fs) ∧
  size (add_all fs Async_new) ≤ max_size (add_all fs Async_new) ∧
  (max_size (add_all fs Async_new) = 1 ∨
   max_size (add_all fs Async_new) ≤ 2 * size (add_all fs Async_new)).
Proof.
  intros Hlen.
  split; [by rewrite add_all_live by (apply well_formed_new || (simpl; lia))|].
  unfold size, max_size.
  split; [rewrite add_all_curr_size by (simpl; unfold MAX_FUNCTIONARRAY_SIZE; lia);
          simpl; lia|].
  destruct (tight_reachable (add_all fs Async_new)) as [(Hn & _) Ht].
  { apply reachable_add_all, reachable_new. }
  split; [lia | exact Ht].
Qed.

Lemma adds_from_new_witness :
  live (add_all [with_delay 3; with_delay 1; with_delay 2] Async_new)
  = [with_delay 3; with_delay 1; with_delay 2].
Proof.
  apply (adds_from_new [with_delay 3; with_delay 1; with_delay 2]).
  by vm_compute.
Defined.

(** X7.  In every state reachable through the public operations the
    capacity is 1 or at most twice the number of registered tasks: growth
    by doubling and shrinking by halving never leave more than half of the
    array unused. *)
Theorem capacity_at_most_twice_size (a : Async) :
  reachable a → max_size a = 1 ∨ max_size a ≤ 2 * size a.
Proof. intros Ha. by destruct (tight_reachable a Ha) as [_ Ht]. Qed.

Lemma capacity_at_most_twice_size_witness :
  max_size (remove 0 (add (with_delay 2) (add (with_delay 1) Async_new))) = 1 ∨
  max_size (remove 0 (add (with_delay 2) (add (with_delay 1) Async_new)))
  ≤ 2 * size (remove 0 (add (with_delay 2) (add (with_delay 1) Async_new))).
Proof.
  apply (capacity_at_most_twice_size
           (remove 0 (add (with_delay 2) (add (with_delay 1) Async_new)))).
  eapply reachable_step; [|apply step_remove].
  eapply reachable_step; [|apply step_add].
  eapply reachable_step; [|apply step_add].
  apply reachable_new.
Defined.

(** X8.  In every state reachable through the public operations the array
    has exactly [m_size] slots and the live range lies inside it: no
    operation leaves [curr_size] pointing behind the allocation. *)
Theorem allocation_matches_capacity (a : Async) :
  reachable a →
  Z.of_nat (length (tasks a)) = max_size a ∧
  0 ≤ size a ≤ Z.of_nat (length (tasks a)).
Proof.
  intros Ha. pose proof (well_formed_reachable a Ha) as Hwf.
  destruct (well_formed_bounds a Hwf) as [Hn Hlen]. done.
Qed.

Lemma allocation_matches_capacity_witness :
  Z.of_nat (length (tasks (add (with_delay 2) (add (with_delay 1) Async_new))))
  = max_size (add (with_delay 2) (add (with_delay 1) Async_new)).
Proof.
  apply (allocation_matches_capacity
           (add (with_delay 2) (add (with_delay 1) Async_new))).
  eapply reachable_step; [|apply step_add].
  eapply reachable_step; [|apply step_add].
  apply reachable_new.
Defined.

(** X9.  [remove(index)] leaves the registry exactly as it was if and only
    if [index] is negative or not below the size; in particular every
    [remove] on an empty registry does nothing. *)
Theorem remove_noop_iff (index : Z) (a : Async) :
  well_formed a →
  remove index a = a ↔ index < 0 ∨ curr_size a ≤ index.
Proof.
  intros Hwf. split.
  - intros Heq. destruct (decide (0 ≤ index < curr_size a)) as [Hi|Hi]; [|lia].
    pose proof (remove_curr_size index a Hi) as Hn. rewrite Heq in Hn. lia.
  - apply remove_out_of_range.
Qed.

Lemma remove_noop_iff_witness :
  remove 5 (registry_of_delays [5; 4]) = registry_of_delays [5; 4]
  ↔ 5 < 0 ∨ curr_size (registry_of_delays [5; 4]) ≤ 5.
Proof.
  apply (remove_noop_iff 5 (registry_of_delays [5; 4])).
  closed_registry 1%nat.
Defined.

(** ** Order of the delays *)

(** X12.  [offsetDelayBy] keeps an ascending live range ascending: after
    the delays were brought into order, advancing them by any amount does
    not disturb the order. *)
Theorem offsetDelayBy_keeps_order (x : Z) (a : Async) :
  well_formed a →
  0 ≤ x →
  sorted_by_delay a →
  sorted_by_delay (offsetDelayBy x a).
Proof.
  intros Hwf Hx Hsorted i t1 t2.
  destruct (well_formed_bounds a Hwf) as [Hn _].
  rewrite offsetDelayBy_live by lia. rewrite !list_lookup_fmap.
  intros [u1 [H1 ->]]%fmap_Some [u2 [H2 ->]]%fmap_Some.
  rewrite !offset_task_delay by done.
  pose proof (Hsorted i u1 u2 H1 H2). lia.
Qed.

Lemma offsetDelayBy_keeps_order_witness :
  sorted_by_delay (offsetDelayBy 4 (registry_of_delays [1; 5; 9])).
Proof.
  apply (offsetDelayBy_keeps_order 4 (registry_of_delays [1; 5; 9])).
  - closed_registry 2%nat.
  - lia.
  - intros i x y.
    destruct i as [|[|i]]; vm_compute; intros Hx Hy;
      inversion Hx; inversion Hy; subst; vm_compute; discriminate.
Defined.

(** X13.  With at most two registered tasks [sort()] does bring the live
    range into ascending order of delay: the single selection pass it then
    makes starts from the [smallestIndex] it was initialised with. *)
Theorem sort_orders_up_to_two (a : Async) :
  well_formed a →
  curr_size a ≤ 2 →
  sorted_by_delay (sort a).
Proof.
  intros Hwf Hsmall i x y Hx Hy.
  destruct (well_formed_bounds a Hwf) as [Hn Hlen].
  assert (Z.of_nat (S i) < curr_size a) as Hi.
  { apply lookup_lt_Some in Hy. unfold live in Hy.
    rewrite length_take, sort_curr_size in Hy. lia. }
  assert (curr_size a = 2) as Hn2 by lia.
  assert (i = 0%nat) as -> by lia.
  destruct a as [m n ts]. simpl in *. subst n.
  destruct ts as [|t0 [|t1 rest]]; simpl in Hn, Hlen; try lia.
  revert Hx Hy. unfold live, sort, sort_run. simpl.
  unfold sort_outer_body. simpl. unfold sort_inner_body. simpl.
  destruct (Z.ltb_spec (delay_time_us t0) (delay_time_us t0)); [lia|]. simpl.
  destruct (Z.ltb_spec (delay_time_us t1) (delay_time_us t0)); simpl.
  - intros [= <-] [= <-]. simpl. lia.
  - intros [= <-] [= <-]. simpl. lia.
Qed.

Lemma sort_orders_up_to_two_witness :
  sorted_by_delay (sort (registry_of_delays [8; 3])).
Proof.
  apply (sort_orders_up_to_two (registry_of_delays [8; 3])).
  - closed_registry 1%nat.
  - by vm_compute.
Defined.

(** ** Passes of the run loop *)

Lemma time_spent_in_nonneg micros w : 0 ≤ time_spent_in micros w.
Proof.
  unfold time_spent_in, wrap. apply Z.mod_pos_bound. by vm_compute.
Qed.

(** Everything a pass that does not hit a [nullptr] callback does. *)
Lemma iteration_result micros a w flow a' w' :
  iteration micros a w = Some (flow, a', w') →
  ∃ r, run (tasks a !!! 0%nat) (getStep (tasks a !!! 0%nat))
           (getId (tasks a !!! 0%nat)) = Some r ∧
       calls (events w')
       = calls (events w)
         ++ [(getStep (tasks a !!! 0%nat), getId (tasks a !!! 0%nat))] ∧
       ((flow = Break ∧ a' = after_head r a ∧ curr_size a' = 0) ∨
        (flow = Continue ∧ curr_size (after_head r a) ≠ 0 ∧
         ∃ x, 0 ≤ x ∧ a' = offsetDelayBy x (after_head r a))).
Proof.
  intros Hit.
  destruct (run (tasks a !!! 0%nat) (getStep (tasks a !!! 0%nat))
              (getId (tasks a !!! 0%nat))) as [r|] eqn:Hr.
  - exists r. split; [done|].
    rewrite (iteration_cases micros a w r Hr) in Hit. cbv zeta in Hit.
    pose proof (time_spent_in_nonneg micros w) as He.
    destruct (Z.eqb_spec (curr_size (after_head r a)) 0) as [Hz|Hnz].
    + simplify_eq. split; [apply after_clock_calls|]. left. done.
    + destruct (Z.leb_spec (get_delay true (tasks (after_head r a) !!! 0%nat))
                  (time_spent_in micros w)); simplify_eq.
      * split; [apply after_clock_calls|]. right.
        split; [done|]. split; [done|]. by eexists.
      * split; [rewrite wait_calls; apply after_clock_calls|]. right.
        split; [done|]. split; [done|]. eexists. split; [|done]. lia.
  - unfold run in Hr.
    destruct (m_func (tasks a !!! 0%nat)) eqn:Hf; [done|].
    by rewrite iteration_undefined in Hit.
Qed.

Lemma after_head_curr_size r a :
  0 < curr_size a →
  curr_size (after_head r a)
  = if 0 <? r then curr_size a else curr_size a - 1.
Proof.
  intros Hn. unfold after_head. rewrite sort_curr_size.
  destruct (0 <? r); [done|]. apply remove_curr_size. lia.
Qed.

Lemma run_until_complete_empty micros fuel a w :
  curr_size a ≤ 0 → run_until_complete micros fuel a w = Completed a w.
Proof.
  intros Hn.
  destruct fuel; simpl; by destruct (Z.ltb_spec 0 (curr_size a)); [lia|].
Qed.

(** X14.  Whenever [run_until_complete()] returns, the registry is empty:
    the loop is left only on [curr_size == 0]. *)
Theorem returns_only_when_empty (micros : nat → Z) (fuel : nat)
    (a a' : Async) (w w' : World) :
  size_invariant a →
  run_until_complete micros fuel a w = Completed a' w' →
  size a' = 0.
Proof.
  revert a w. induction fuel as [|fuel IH]; intros a w Ha; simpl.
  - destruct (Z.ltb_spec 0 (curr_size a)); [done|].
    intros [= <- _]. destruct Ha as (Hn & _). unfold size. lia.
  - destruct (Z.ltb_spec 0 (curr_size a)).
    + destruct (iteration micros a w) as [[[flow a1] w1]|] eqn:Hit; [|done].
      destruct (iteration_result _ _ _ _ _ _ Hit)
        as (r & _ & _ & [(-> & -> & Hz)|(-> & _ & _)]).
      * by intros [= <- _].
      * apply IH.
        eapply (iteration_preserves micros size_invariant); eauto using
          size_invariant_reschedule, size_invariant_remove,
          size_invariant_sort, size_invariant_offsetDelayBy.
    + intros [= <- _]. destruct Ha as (Hn & _). unfold size. lia.
Qed.

Lemma returns_only_when_empty_witness :
  size (mkAsync 1 0 [mkFunction (Some three_then_done) 100 4 0]) = 0.
Proof.
  apply (returns_only_when_empty tick_100 4
           (add (function_of three_then_done) Async_new)
           (mkAsync 1 0 [mkFunction (Some three_then_done) 100 4 0])
           world_start
           (mkWorld 7 [Run 1 0; DelayMicroseconds 400; Run 2 0;
                       DelayMicroseconds 400; Run 3 0;
                       DelayMicroseconds 400; Run 4 0])).
  - split; [split; by vm_compute|].
    split; [by vm_compute | exists 0%nat; by vm_compute].
  - by vm_compute.
Defined.

(** X15.  A pass invokes exactly one callback, that of the task in slot 0,
    with that task's step and id, and it reads the clock once or twice.  No
    other task runs during the pass, whatever the delays are. *)
Theorem pass_runs_head_once (micros : nat → Z) (a a' : Async) (w w' : World)
    (flow : Flow) :
  iteration micros a w = Some (flow, a', w') →
  calls (events w')
  = calls (events w)
    ++ [(getStep (tasks a !!! 0%nat), getId (tasks a !!! 0%nat))] ∧
  (clock_reads w < clock_reads w' ≤ clock_reads w + 2)%nat.
Proof.
  intros Hit.
  destruct (iteration_result _ _ _ _ _ _ Hit) as (r & Hr & Hcalls & _).
  split; [done|].
  rewrite (iteration_cases micros a w r Hr) in Hit. cbv zeta in Hit.
  destruct (_ =? _); [simplify_eq; simpl; lia|].
  destruct (_ <=? _); simplify_eq.
  - simpl; lia.
  - unfold wait, emit. simpl. destruct (16383 <? _); simpl; lia.
Qed.

Lemma pass_runs_head_once_witness :
  calls (events (mkWorld 2 [Run 1 0; DelayMicroseconds 400]))
  = calls (events world_start)
    ++ [(getStep (tasks (add (function_of every_500) Async_new) !!! 0%nat),
         getId (tasks (add (function_of every_500) Async_new) !!! 0%nat))].
Proof.
  apply (pass_runs_head_once tick_100
           (add (function_of every_500) Async_new)
           (offsetDelayBy 400
              (after_head 500 (add (function_of every_500) Async_new)))
           world_start
           (mkWorld 2 [Run 1 0; DelayMicroseconds 400])
           Continue).
  by vm_compute.
Defined.

(** X16.  What a pass does to the number of tasks is decided by the value
    [r] the head callback returned: the size is unchanged when [r > 0] and
    one less when [r = 0]; the pass leaves the loop exactly when that makes
    the registry empty.  A pass never registers a task. *)
Theorem pass_size (micros : nat → Z) (a a' : Async) (w w' : World)
    (flow : Flow) :
  0 < curr_size a →
  iteration micros a w = Some (flow, a', w') →
  ∃ r, run (tasks a !!! 0%nat) (getStep (tasks a !!! 0%nat))
           (getId (tasks a !!! 0%nat)) = Some r ∧
       size a' = (if 0 <? r then size a else size a - 1) ∧
       (flow = Break ↔ size a' = 0).
Proof.
  intros Hn Hit.
  destruct (iteration_result _ _ _ _ _ _ Hit)
    as (r & Hr & _ & [(-> & -> & Hz)|(-> & Hnz & x & _ & ->)]);
    exists r; (split; [done|]); unfold size.
  - split; [by apply after_head_curr_size | done].
  - change (curr_size (offsetDelayBy x (after_head r a)))
      with (curr_size (after_head r a)).
    split; [by apply after_head_curr_size|]. split; [done | lia].
Qed.

Lemma pass_size_witness :
  ∃ r, run (tasks (add (function_of every_500) Async_new) !!! 0%nat)
           (getStep (tasks (add (function_of every_500) Async_new) !!! 0%nat))
           (getId (tasks (add (function_of every_500) Async_new) !!! 0%nat))
       = Some r ∧
       size (offsetDelayBy 400
               (after_head 500 (add (function_of every_500) Async_new)))
       = (if 0 <? r then size (add (function_of every_500) Async_new)
          else size (add (function_of every_500) Async_new) - 1) ∧
       (Continue = Break
        ↔ size (offsetDelayBy 400
                  (after_head 500 (add (function_of every_500) Async_new)))
          = 0).
Proof.
  apply (pass_size tick_100
           (add (function_of every_500) Async_new)
           (offsetDelayBy 400
              (after_head 500 (add (function_of every_500) Async_new)))
           world_start
           (mkWorld 2 [Run 1 0; DelayMicroseconds 400])
           Continue).
  - by vm_compute.
  - by vm_compute.
Defined.

(** X17.  In a pass where the registry is still non-empty after the head
    task was handled and the measured time [e] has reached the new head
    task's delay, the engine does not sleep: the only event of the pass is
    the callback invocation, and every live task's delay is decreased by
    [e], saturating at zero. *)
Theorem no_sleep_when_late (micros : nat → Z) (a : Async) (w : World) (r : Z) :
  well_formed a →
  run (tasks a !!! 0%nat) (getStep (tasks a !!! 0%nat))
      (getId (tasks a !!! 0%nat)) = Some r →
  curr_size (after_head r a) ≠ 0 →
  head_delay (after_head r a) ≤ time_spent_in micros w →
  iteration micros a w
  = Some (Continue,
          offsetDelayBy (time_spent_in micros w) (after_head r a),
          after_clock a w) ∧
  events (after_clock a w)
  = events w ++ [Run (getStep (tasks a !!! 0%nat)) (getId (tasks a !!! 0%nat))] ∧
  delays (live (offsetDelayBy (time_spent_in micros w) (after_head r a)))
  = (λ d, Z.max 0 (d - time_spent_in micros w))
      <$> delays (live (after_head r a)).
Proof.
  intros Hwf Hr Hne Hlate. split; [|split; [done|]].
  - rewrite (iteration_cases micros a w r Hr). cbv zeta.
    fold (head_delay (after_head r a)).
    destruct (Z.eqb_spec (curr_size (after_head r a)) 0); [done|].
    by destruct (Z.leb_spec (head_delay (after_head r a))
                   (time_spent_in micros w)); [|lia].
  - assert (well_formed (after_head r a)) as Hwf1.
    { apply after_head_preserves;
        auto using well_formed_reschedule, well_formed_remove,
                   well_formed_sort. }
    destruct (well_formed_bounds _ Hwf1) as [Hn _].
    rewrite offsetDelayBy_live by lia.
    unfold delays. rewrite <-!list_fmap_compose.
    apply list_fmap_ext. intros _ t _. simpl. apply offset_task_delay.
    apply time_spent_in_nonneg.
Qed.

Lemma no_sleep_when_late_witness :
  events (after_clock (add (function_of every_500) Async_new) world_start)
  = events world_start
    ++ [Run (getStep (tasks (add (function_of every_500) Async_new) !!! 0%nat))
            (getId (tasks (add (function_of every_500) Async_new) !!! 0%nat))].
Proof.
  apply (no_sleep_when_late (λ k, 700 * Z.of_nat k)
           (add (function_of every_500) Async_new) world_start 500).
  - closed_registry 0%nat.
  - reflexivity.
  - by vm_compute.
  - by vm_compute.
Defined.

(** ** Whole runs *)

Lemma one_shot_offset x t : one_shot t → one_shot (offset_task x t).
Proof.
  intros (f & Hf & H0). exists f. destruct t as [g d s i]. simpl in *.
  unfold offset_task. by destruct (x <=? _).
Qed.

Lemma one_shot_run t :
  one_shot t → run t (getStep t) (getId t) = Some 0.
Proof.
  intros (f & Hf & H0). unfold run, getStep, getId. by rewrite Hf, H0.
Qed.

Lemma head_in_live a :
  well_formed a → 0 < curr_size a → live a !! 0%nat = Some (tasks a !!! 0%nat).
Proof.
  intros Hwf Hn. destruct (well_formed_bounds a Hwf) as [Hb _].
  rewrite live_lookup by lia. apply list_lookup_lookup_total_lt. lia.
Qed.

(** After a finished head task was evicted, the live tasks are the other
    ones. *)
Lemma after_head_finished a :
  well_formed a → 0 < curr_size a →
  well_formed (after_head 0 a) ∧
  curr_size (after_head 0 a) = curr_size a - 1 ∧
  live a ≡ₚ tasks a !!! 0%nat :: live (after_head 0 a).
Proof.
  intros Hwf Hn.
  assert (well_formed (remove 0 a)) as Hwf' by by apply well_formed_remove.
  destruct (well_formed_bounds _ Hwf') as [Hb _].
  split; [|split].
  - apply well_formed_sort, Hwf'.
  - by rewrite after_head_curr_size.
  - unfold after_head. change (0 <? 0) with false. cbv iota.
    rewrite sort_live by lia.
    apply (remove_live 0 a Hwf). lia.
Qed.

(** X18.  A registry all of whose tasks are finished the first time they
    run is drained by [run_until_complete()]: the loop returns after as
    many passes as there are tasks, has invoked exactly that many callbacks,
    and leaves the registry empty. *)
Theorem one_shot_tasks_drain (micros : nat → Z) (fuel : nat) (a : Async)
    (w : World) :
  well_formed a →
  Forall one_shot (live a) →
  (Z.to_nat (curr_size a) ≤ fuel)%nat →
  ∃ a' w',
    run_until_complete micros fuel a w = Completed a' w' ∧
    size a' = 0 ∧
    length (calls (events w'))
    = (length (calls (events w)) + Z.to_nat (curr_size a))%nat.
Proof.
  revert a w. induction fuel as [|fuel IH]; intros a w Hwf Hall Hfuel;
    destruct (well_formed_bounds a Hwf) as [Hb _].
  - exists a, w. rewrite run_until_complete_empty by lia.
    split; [done|]. unfold size. split; lia.
  - destruct (decide (curr_size a = 0)) as [Hz|Hnz].
    { exists a, w. rewrite run_until_complete_empty by lia.
      split; [done|]. unfold size. split; lia. }
    assert (0 < curr_size a) as Hpos by lia.
    pose proof (head_in_live a Hwf Hpos) as Hhead.
    pose proof (Forall_lookup_1 _ _ _ _ Hall Hhead) as Hshot.
    pose proof (one_shot_run _ Hshot) as Hr.
    destruct (after_head_finished a Hwf Hpos) as (Hwf1 & Hn1 & Hperm).
    assert (Forall one_shot (live (after_head 0 a))) as Hall1.
    { rewrite Hperm in Hall. by apply Forall_cons in Hall as [_ ?]. }
    destruct (iteration micros a w) as [[[flow a1] w1]|] eqn:Hit.
    + destruct (iteration_result _ _ _ _ _ _ Hit)
        as (r & Hr' & Hcalls & Hshape).
      assert (r = 0) as -> by congruence.
      destruct Hshape as [(-> & -> & Hz)|(-> & Hnz1 & x & Hx & ->)].
      * exists (after_head 0 a), w1.
        rewrite (run_until_complete_break micros fuel a w _ _ Hpos Hit).
        split; [done|]. split; [done|].
        rewrite Hcalls, length_app. simpl. lia.
      * rewrite (run_until_complete_again micros fuel a w _ _ Hpos Hit).
        destruct (well_formed_bounds _ Hwf1) as [Hb1 _].
        destruct (IH (offsetDelayBy x (after_head 0 a)) w1)
          as (a' & w' & Hrun & Hempty & Hlen).
        { by apply well_formed_offsetDelayBy. }
        { rewrite offsetDelayBy_live by lia.
          apply Forall_fmap. eapply Forall_impl; [exact Hall1|].
          intros t. apply one_shot_offset. }
        { change (curr_size (offsetDelayBy x (after_head 0 a)))
            with (curr_size (after_head 0 a)). lia. }
        exists a', w'. split; [done|]. split; [done|].
        rewrite Hlen, Hcalls, length_app.
        change (curr_size (offsetDelayBy x (after_head 0 a)))
          with (curr_size (after_head 0 a)).
        rewrite Hn1. cbn [length]. lia.
    + rewrite (iteration_cases micros a w 0 Hr) in Hit. cbv zeta in Hit.
      destruct (_ =? _); [done|]. by destruct (_ <=? _).
Qed.

Lemma one_shot_tasks_drain_witness :
  ∃ a' w',
    run_until_complete tick_100 3 (registry_of_delays [30; 10; 20]) world_start
    = Completed a' w' ∧
    size a' = 0 ∧
    length (calls (events w'))
    = (length (calls (events world_start))
       + Z.to_nat (curr_size (registry_of_delays [30%Z; 10%Z; 20%Z])))%nat.
Proof.
  apply (one_shot_tasks_drain tick_100 3 (registry_of_delays [30; 10; 20])
           world_start).
  - closed_registry 2%nat.
  - repeat constructor; exists idle; split; reflexivity.
  - vm_compute. lia.
Defined.

(** X19.  Which task runs first is decided by the order of the [add]
    calls, not by the delays: [add] does not sort and the loop runs slot 0
    before its first [sort()].  Two finished-at-once tasks added as A then B
    are invoked as A then B for all delays, also when B's delay is the
    smaller one. *)
Theorem first_added_runs_first (micros : nat → Z) (fA fB : callback)
    (dA dB iA iB : Z) (fuel : nat) (w : World) :
  fA 1 iA = 0 → fB 1 iB = 0 →
  (2 ≤ fuel)%nat →
  ∃ a' w',
    run_until_complete micros fuel
      (add (setId iB (set_delay dB true (function_of fB)))
         (add (setId iA (set_delay dA true (function_of fA))) Async_new)) w
    = Completed a' w' ∧
    size a' = 0 ∧
    calls (events w') = calls (events w) ++ [(1, iA); (1, iB)].
Proof.
  intros HA HB Hfuel. do 2 (destruct fuel as [|fuel]; [lia|]).
  set (tA := mkFunction (Some fA) dA 1 iA).
  set (tB := mkFunction (Some fB) dB 1 iB).
  change (add _ (add _ Async_new)) with (mkAsync 2 2 [tA; tB]).
  set (a := mkAsync 2 2 [tA; tB]).
  assert (run (tasks a !!! 0%nat) (getStep (tasks a !!! 0%nat))
            (getId (tasks a !!! 0%nat)) = Some 0) as Hr
    by (unfold run; simpl; by rewrite HA).
  pose proof (iteration_cases micros a w 0 Hr) as Hit. cbv zeta in Hit.
  change (after_head 0 a) with (mkAsync 2 1 [tB; tB]) in Hit.
  change (curr_size (mkAsync 2 1 [tB; tB]) =? 0) with false in Hit.
  cbv iota in Hit.
  assert (∀ x, only_task fB 1 iB (offsetDelayBy x (mkAsync 2 1 [tB; tB])))
    as Honly.
  { intros x.
    destruct (offsetDelayBy_one x (mkAsync 2 1 [tB; tB]) tB eq_refl eq_refl)
      as [Hn Ht].
    split; [done|]. rewrite Ht. unfold offset_task, tB. simpl.
    destruct (x <=? dB); by eexists. }
  assert (∃ a1 w1, iteration micros a w = Some (Continue, a1, w1) ∧
                   only_task fB 1 iB a1 ∧
                   calls (events w1) = calls (events w) ++ [(1, iA)])
    as (a1 & w1 & Hit1 & Hone & Hc1).
  { destruct (_ <=? _); eexists _, _; (split; [exact Hit|]);
      (split; [apply Honly|]).
    - by rewrite after_clock_calls.
    - by rewrite wait_calls, after_clock_calls. }
  destruct (single_pass_done micros fB 1 iB a1 w1 Hone HB)
    as (a2 & w2 & Hit2 & Hn2 & Hc2).
  exists a2, w2.
  rewrite (run_until_complete_again micros _ a w a1 w1 eq_refl Hit1).
  rewrite (run_until_complete_break micros _ a1 w1 a2 w2
             ltac:(destruct Hone as [-> _]; lia) Hit2).
  split; [done|]. split; [done|]. by rewrite Hc2, Hc1, <-app_assoc.
Qed.

Lemma first_added_runs_first_witness :
  ∃ a' w',
    run_until_complete tick_100 2
      (add (setId 2 (set_delay 100 true (function_of idle)))
         (add (setId 1 (set_delay 1000 true (function_of idle))) Async_new))
      world_start
    = Completed a' w' ∧
    size a' = 0 ∧
    calls (events w') = calls (events world_start) ++ [(1, 1); (1, 2)].
Proof.
  apply (first_added_runs_first tick_100 idle idle 1000 100 1 2 2 world_start);
    [reflexivity | reflexivity | lia].
Defined.

(** ** Composition of the operations *)

(** X20.  Removing the task that was just added gives back the registry's
    tasks: after [add] on a registry that is not full, [remove] at the old
    size restores the size and leaves the live tasks that were there before
    (in some order, as [remove] re-sorts). *)
Theorem remove_undoes_add (fw : function) (a : Async) :
  well_formed a →
  curr_size a < MAX_FUNCTIONARRAY_SIZE →
  size (remove (curr_size a) (add fw a)) = size a ∧
  live (remove (curr_size a) (add fw a)) ≡ₚ live a.
Proof.
  intros Hwf Hroom. destruct (well_formed_bounds a Hwf) as [Hn _].
  pose proof (well_formed_add fw a Hwf) as Hwf'.
  assert (curr_size (add fw a) = curr_size a + 1) as Hn'.
  { rewrite add_curr_size.
    by destruct (Z.leb_spec MAX_FUNCTIONARRAY_SIZE (curr_size a)); [lia|]. }
  pose proof (add_live fw a Hwf Hroom) as Hlive.
  assert (length (live a) = Z.to_nat (curr_size a)) as Hll
    by (unfold live; rewrite length_take_le; lia).
  split.
  - unfold size. rewrite remove_curr_size by lia. lia.
  - pose proof (remove_live (curr_size a) (add fw a) Hwf' ltac:(lia)) as Hperm.
    assert (tasks (add fw a) !!! Z.to_nat (curr_size a) = fw) as Hlast.
    { apply list_lookup_total_correct. rewrite <-live_lookup by lia.
      rewrite Hlive, lookup_app_r by lia. by rewrite Hll, Nat.sub_diag. }
    rewrite Hlast, Hlive in Hperm.
    rewrite Permutation_app_comm in Hperm. simpl in Hperm.
    symmetry. by apply Permutation_cons_inv in Hperm.
Qed.

Lemma remove_undoes_add_witness :
  live (remove (curr_size (registry_of_delays [5; 4]))
          (add (with_delay 9) (registry_of_delays [5; 4])))
  ≡ₚ live (registry_of_delays [5; 4]).
Proof.
  apply (remove_undoes_add (with_delay 9) (registry_of_delays [5; 4])).
  - closed_registry 1%nat.
  - by vm_compute.
Defined.

(** X21.  [offsetDelayBy] changes delays only: every live task keeps its
    callback, its step and its id, the slots behind the live range keep
    their contents, and both sizes stay as they are. *)
Theorem offsetDelayBy_only_delays (x : Z) (a : Async) :
  well_formed a →
  m_func <$> live (offsetDelayBy x a) = m_func <$> live a ∧
  getStep <$> live (offsetDelayBy x a) = getStep <$> live a ∧
  getId <$> live (offsetDelayBy x a) = getId <$> live a ∧
  drop (Z.to_nat (curr_size a)) (tasks (offsetDelayBy x a))
  = drop (Z.to_nat (curr_size a)) (tasks a) ∧
  size (offsetDelayBy x a) = size a ∧
  max_size (offsetDelayBy x a) = max_size a.
Proof.
  intros Hwf. destruct (well_formed_bounds a Hwf) as [Hn _].
  assert (∀ t, m_func (offset_task x t) = m_func t ∧
               getStep (offset_task x t) = getStep t ∧
               getId (offset_task x t) = getId t) as Hkeep.
  { intros [f d s i]. unfold offset_task. by destruct (x <=? _). }
  rewrite offsetDelayBy_live by lia. rewrite <-!list_fmap_compose.
  split; [apply list_fmap_ext; intros _ t _; apply Hkeep|].
  split; [apply list_fmap_ext; intros _ t _; apply Hkeep|].
  split; [apply list_fmap_ext; intros _ t _; apply Hkeep|].
  split; [|done].
  rewrite offsetDelayBy_tasks by lia.
  apply drop_app_length'. unfold live.
  rewrite length_fmap, length_take_le; lia.
Qed.

Lemma offsetDelayBy_only_delays_witness :
  getStep <$> live (offsetDelayBy 3 (registry_of_delays [5; 4]))
  = getStep <$> live (registry_of_delays [5; 4]).
Proof.
  apply (offsetDelayBy_only_delays 3 (registry_of_delays [5; 4])).
  closed_registry 1%nat.
Defined.
